(** * music-metadata: the orchestration and normalization layer of [src/index.ts]

    A shallow embedding of the exported functions of [src/index.ts]
    ([orderTags], [joinArtists], [ratingToStars], [parseFile], [parseStream],
    [parseBuffer]) together with the properties they satisfy.

    Conventions of the embedding:
    - a JavaScript exception (or a promise rejection reason) is a value of
      [Exn]; a computation that may throw returns a [Completion];
    - the object literal [{}] used as a dictionary is a finite map of its own
      properties ([gmap string _]) in front of [Object.prototype], whose member
      names are listed in [objectPrototypeKeys];
    - property enumeration order of objects is not modelled. *)

From stdpp Require Import gmap strings list fin_maps.
From Stdlib Require Import Ascii ZArith QArith Qround SpecFloat.

Local Close Scope Q_scope.
Local Open Scope list_scope.

(** ** JavaScript values shared by all parts *)

(** What a [throw] carries. [Error m] is [new Error(m)]; [TypeError] is the
    engine's error for calling something that is not a function (its message
    text depends on the engine and is left out). *)
Inductive Exn : Type :=
  | Error (message : string)
  | TypeError.

(** Outcome of running a piece of synchronous code, and the settled state of a
    promise: [Normal a] is a returned value or a fulfilled promise, [Abrupt e]
    is a thrown exception or a rejected promise. *)
Inductive Completion (A : Type) : Type :=
  | Normal (a : A)
  | Abrupt (e : Exn).
Arguments Normal {A} a.
Arguments Abrupt {A} e.

Definition bindC {A B : Type} (c : Completion A) (k : A -> Completion B) : Completion B :=
  match c with
  | Normal a => k a
  | Abrupt e => Abrupt e
  end.

(** The own and inherited members of [Object.prototype] that every object
    created by [{}] sees through its prototype chain (ECMAScript, with the
    Annex B accessors). All of them are functions, except [__proto__], an
    accessor that yields [Object.prototype] itself; none is an array. *)
Definition objectPrototypeKeys : list string :=
  [ "constructor"; "hasOwnProperty"; "isPrototypeOf"; "propertyIsEnumerable";
    "toLocaleString"; "toString"; "valueOf"; "__proto__";
    "__defineGetter__"; "__defineSetter__"; "__lookupGetter__"; "__lookupSetter__" ].

(** ** orderTags *)

Section OrderTags.
(** [ITag.value] has type [any]: the embedding is parametric in it. *)
Context {V : Type}.

Record ITag : Type := mkTag { id : string; value : V }.

(** Result of reading [tags[k]] on an object built from [{}] whose own
    properties all hold arrays. *)
Inductive PropertyRead : Type :=
  | OwnArray (l : list V)
  | InheritedMember
  | Undefined.

Definition getProperty (tags : gmap string (list V)) (k : string) : PropertyRead :=
  match tags !! k with
  | Some l => OwnArray l
  | None => if decide (k ∈ objectPrototypeKeys) then InheritedMember else Undefined
  end.

(** One iteration of the loop body
    [(tags[tag.id] = (tags[tag.id] || [])).push(tag.value)].
    An own array is truthy and [push] appends to it in place; [undefined] is
    replaced by a fresh array; an inherited member is truthy, is stored back
    and has no [push], so the call throws. *)
Definition pushTag (tags : gmap string (list V)) (tag : ITag) : Completion (gmap string (list V)) :=
  match getProperty tags (id tag) with
  | OwnArray l => Normal (<[id tag := l ++ [value tag]]> tags)
  | Undefined => Normal (<[id tag := [value tag]]> tags)
  | InheritedMember => Abrupt TypeError
  end.

(** [for (const tag of nativeTags) { ... }] from the accumulator [tags]. *)
Fixpoint orderTagsFrom (tags : gmap string (list V)) (nativeTags : list ITag)
  : Completion (gmap string (list V)) :=
  match nativeTags with
  | [] => Normal tags
  | tag :: rest => bindC (pushTag tags tag) (fun tags' => orderTagsFrom tags' rest)
  end.

Definition orderTags (nativeTags : list ITag) : Completion (gmap string (list V)) :=
  orderTagsFrom ∅ nativeTags.

(** *** Specification side *)

(** The values of the tags of [T] whose id is [k], in their order in [T]. *)
Fixpoint valuesWithId (k : string) (T : list ITag) : list V :=
  match T with
  | [] => []
  | t :: rest => if decide (id t = k) then value t :: valuesWithId k rest
                 else valuesWithId k rest
  end.

(** A group exists exactly when it is not empty. *)
Definition groupOf (vs : list V) : option (list V) :=
  match vs with
  | [] => None
  | _ => Some vs
  end.

(** How many values a dictionary holds, over all its groups. *)
Definition totalValues (d : gmap string (list V)) : nat :=
  map_fold (fun _ l n => length l + n) 0 d.

(** Per-id concatenation of two dictionaries. *)
Definition concatGroups (d1 d2 : gmap string (list V)) : gmap string (list V) :=
  union_with (fun l1 l2 => Some (l1 ++ l2)) d1 d2.

(** No own property of [d] is named like a member of [Object.prototype]. *)
Definition shadowFree (d : gmap string (list V)) : Prop :=
  ∀ k, k ∈ objectPrototypeKeys → d !! k = None.

Definition plainIds (T : list ITag) : Prop :=
  Forall (fun t => id t ∉ objectPrototypeKeys) T.

End OrderTags.

Arguments ITag V : clear implicits.

(** ** joinArtists *)

(** [Array.prototype.slice(start, end)]: negative positions count from the
    end, positions are clamped to the array. *)
Definition Array_slice {A : Type} (l : list A) (start end_ : Z) : list A :=
  let len := Z.of_nat (length l) in
  let k := if (start <? 0)%Z then Z.max (len + start) 0 else Z.min start len in
  let final := if (end_ <? 0)%Z then Z.max (len + end_) 0 else Z.min end_ len in
  take (Z.to_nat (final - k)) (drop (Z.to_nat k) l).

(** [l[i]]: [undefined] (here [None]) outside the array. *)
Definition Array_get {A : Type} (l : list A) (i : Z) : option A :=
  if (i <? 0)%Z then None else l !! Z.to_nat i.

(** [Array.prototype.join(sep)] on an array of strings: the result starts as
    the first element and every later element is appended after [sep]. *)
Definition Array_join (sep : string) (l : list string) : string :=
  match l with
  | [] => ""
  | first :: rest => fold_left (fun R next => (R +:+ sep) +:+ next) rest first
  end.

(** The string that [+] concatenates for an array read. *)
Definition toStringOperand (o : option string) : string :=
  match o with
  | Some s => s
  | None => "undefined"
  end.

Definition joinArtists (artists : list string) : string :=
  let length := Z.of_nat (length artists) in
  if (2 <? length)%Z
  then (Array_join ", " (Array_slice artists 0 (length - 1)) +:+ " & ")
         +:+ toStringOperand (Array_get artists (length - 1))
  else Array_join " & " artists.

(** *** Specification side *)

(** The names written one after the other with [sep] between neighbours. *)
Fixpoint separatedBy (sep : string) (names : list string) : string :=
  match names with
  | [] => ""
  | [name] => name
  | name :: rest => name +:+ sep +:+ separatedBy sep rest
  end.

(** The rule of the specification, case by case on the number of names. *)
Definition joinArtistsSpec (names : list string) : string :=
  match length names with
  | 0 => ""
  | 1 | 2 => separatedBy " & " names
  | _ => separatedBy ", " (removelast names) +:+ " & " +:+ List.last names ""
  end.

(** ** ratingToStars *)

(** A JavaScript number, in exact arithmetic. Finite values are kept as
    rationals: every finite double is one, and on a rating the product by [4]
    (a power of two), the rounding to an integer and the sum with [1] lose
    nothing in double precision as long as no overflow occurs. Positive and
    negative zero are not distinguished. The bit-level evaluation follows in
    [Binary64]; the two are proved to agree on all doubles between [0] and
    [1]. *)
Inductive Number : Type :=
  | NaN
  | Infinity (negative : bool)
  | Finite (q : Q).

Definition Number_mul (x y : Number) : Number :=
  match x, y with
  | NaN, _ | _, NaN => NaN
  | Finite p, Finite q => Finite (Qred (p * q)%Q)
  | Infinity s, Finite q | Finite q, Infinity s =>
      match (q ?= 0)%Q with
      | Eq => NaN
      | Lt => Infinity (negb s)
      | Gt => Infinity s
      end
  | Infinity s, Infinity t => Infinity (xorb s t)
  end.

Definition Number_add (x y : Number) : Number :=
  match x, y with
  | NaN, _ | _, NaN => NaN
  | Finite p, Finite q => Finite (Qred (p + q)%Q)
  | Infinity s, Finite _ | Finite _, Infinity s => Infinity s
  | Infinity s, Infinity t => if Bool.eqb s t then Infinity s else NaN
  end.

(** [Math.round]: the integer closest to [x], the larger one when two are
    equally close; [NaN] and the infinities are returned as they are. *)
Definition Math_round (x : Number) : Number :=
  match x with
  | Finite q => Finite (inject_Z (Qfloor (q + (1 # 2))%Q))
  | _ => x
  end.

(** [rating === undefined ? 0 : 1 + Math.round(rating * 4)]; an unset rating
    is [None]. *)
Definition ratingToStars (rating : option Number) : Number :=
  match rating with
  | None => Finite 0%Q
  | Some r => Number_add (Finite 1%Q) (Math_round (Number_mul r (Finite 4%Q)))
  end.

(** The number [n] as a JavaScript value. *)
Definition ofZ (n : Z) : Number := Finite (inject_Z n).

(** *** The same function on IEEE 754 double precision values

    [spec_float] with 53 bits of precision and exponents up to 1024 is the
    binary64 format of JavaScript numbers, with round-to-nearest-even
    arithmetic; [ratingToStars] is evaluated on it bit for bit. *)
Module Binary64.

Definition prec : Z := 53.
Definition emax : Z := 1024.

Definition mul : spec_float → spec_float → spec_float := SFmul prec emax.
Definition add : spec_float → spec_float → spec_float := SFadd prec emax.

(** The double closest to [m * 2 ^ e]. *)
Definition dyadic (m e : Z) : spec_float := binary_normalize prec emax m e false.

(** [Math.round]: a double with a non-negative exponent is an integer and is
    returned as it is; otherwise the result is [floor(x + 1/2)], computed
    on the integers [2 m + 2 ^ (- e)] and [2 ^ (1 - e)], and a zero result
    keeps the sign of [x]. *)
Definition Math_round (x : spec_float) : spec_float :=
  match x with
  | S754_finite s m e =>
      if (0 <=? e)%Z then x
      else
        let n := ((cond_Zopp s (Zpos m) * 2 + 2 ^ (- e)) / 2 ^ (1 - e))%Z in
        if (n =? 0)%Z then S754_zero s else dyadic n 0
  | _ => x
  end.

Definition ratingToStars (rating : option spec_float) : spec_float :=
  match rating with
  | None => dyadic 0 0
  | Some r => add (dyadic 1 0) (Math_round (mul r (dyadic 4 0)))
  end.

(** The exact value of a double. *)
Definition value (x : spec_float) : Number :=
  match x with
  | S754_zero _ => Finite 0%Q
  | S754_infinity s => Infinity s
  | S754_nan => NaN
  | S754_finite s m e =>
      Finite (Qred (if (0 <=? e)%Z then inject_Z (cond_Zopp s (Zpos m) * 2 ^ e)
                    else cond_Zopp s (Zpos m) # Z.to_pos (2 ^ (- e))))
  end.

(** The ratings named in the properties below: 0, 1/8, 3/8, 1/2, 5/8, 7/8
    and 1, and some others. *)
Definition sampleRatings : list spec_float :=
  [ dyadic 0 0; dyadic 1 (-3); dyadic 3 (-3); dyadic 1 (-1); dyadic 5 (-3);
    dyadic 7 (-3); dyadic 1 0; dyadic 1 (-2); dyadic 3 (-2); dyadic 1 (-4);
    dyadic 1 (-1074); dyadic 3602879701896397 (-55) ].

End Binary64.

(** ** Parsing orchestration: data *)

(** [ParserType]: the names of the parser modules. All are non-empty strings,
    hence truthy. *)
Inductive ParserType : Type :=
  | mpeg | apev2 | mp4 | asf | flac | ogg | aiff | wavpack | riff.

(** The plain fields of [IOptions]. Its two function-valued fields,
    [loadParser] and [observer], are only consumed by the collaborators
    ([ParserFactory], [MetadataCollector]), whose behaviour is a parameter of
    the embedding. A file size is a whole number of bytes. *)
Module Options.
Record IOptions : Type := mkOptions {
  path : option string;
  fileSize : option Z;
  native : option bool;
  duration : option bool;
  skipCovers : option bool;
  skipPostHeaders : option bool
}.

(** The default argument [{}]. *)
Definition empty : IOptions :=
  {| path := None; fileSize := None; native := None; duration := None;
     skipCovers := None; skipPostHeaders := None |}.
End Options.

(** The state of a strtok3 tokenizer that this layer reads and writes. *)
Record ITokenizer : Type := mkTokenizer { fileSize : option Z }.

(** Truthiness of an optional number: [undefined] and [0] are falsy. *)
Definition truthy (n : option Z) : bool :=
  match n with
  | Some z => negb (z =? 0)%Z
  | None => false
  end.

(** The calls that leave this layer, in the order they are made. A call of
    [ParserFactory.parse] is recorded with the tokenizer state it is handed. *)
Inductive Event : Type :=
  | FromFile (filePath : string)
  | FromStream
  | FromBuffer
  | LoadParser (parserName : ParserType) (options : Options.IOptions)
  | Init
  | Parse
  | Close
  | FactoryParse (tokenizer : ITokenizer) (mimeType : option string)
      (options : Options.IOptions).

Definition isClose (ev : Event) : bool :=
  match ev with Close => true | _ => false end.

Definition isTokenizerWork (ev : Event) : bool :=
  match ev with
  | FromFile _ | FromStream | FromBuffer | Close => true
  | _ => false
  end.

Definition isDecoderWork (ev : Event) : bool :=
  match ev with
  | LoadParser _ _ | Init | Parse | FactoryParse _ _ _ => true
  | _ => false
  end.

(** How often [close] was called in a log. *)
Definition closeCount (log : list Event) : nat :=
  length (filter (fun ev => isClose ev = true) log).

(** *** Asynchronous computations

    Within one call of an entry point the steps run one after the other, so a
    promise is its effect on the log of calls together with its settled
    state. *)
Definition Async (A : Type) : Type := list Event -> list Event * Completion A.

Definition resolve {A : Type} (a : A) : Async A := fun log => (log, Normal a).

(** [throw e] inside a callback, or a rejected promise. *)
Definition throw {A : Type} (e : Exn) : Async A := fun log => (log, Abrupt e).

(** A call to a collaborator: it is logged and settles as the collaborator
    decides. *)
Definition call {A : Type} (ev : Event) (outcome : Completion A) : Async A :=
  fun log => (log ++ [ev], outcome).

(** [p.then(f)]: [f] runs on fulfilment, a rejection passes through. *)
Definition then_ {A B : Type} (p : Async A) (f : A -> Async B) : Async B :=
  fun log =>
    match p log with
    | (log', Normal a) => f a log'
    | (log', Abrupt e) => (log', Abrupt e)
    end.

(** [p.catch(h)]: [h] runs on rejection, a fulfilment passes through. *)
Definition catch_ {A : Type} (p : Async A) (h : Exn -> Async A) : Async A :=
  fun log =>
    match p log with
    | (log', Normal a) => (log', Normal a)
    | (log', Abrupt e) => h e log'
    end.

(** ** Parsing orchestration: the entry points *)

Section Orchestration.
(** [IAudioMetadata] and [Stream.Readable] are opaque to this layer. *)
Context {IAudioMetadata Readable : Type}.

(** A loaded parser: whether [init] returns (itself) or throws, how the
    promise of [parse()] settles, and what the collector handed to [init] then
    yields from [toCommonMetadata()]. Creating the [MetadataCollector] and
    reading it are taken not to throw. *)
Record ITokenParser : Type := mkParser {
  init : Completion unit;
  parse : Completion unit;
  toCommonMetadata : IAudioMetadata
}.

(** The collaborators of [index.ts]: strtok3, path and ParserFactory.
    [tokenizer_close n] is how the call of [close] settles that follows [n]
    earlier ones. *)
Record Collaborators : Type := mkCollaborators {
  strtok3_fromFile : string -> Completion ITokenizer;
  strtok3_fromStream : Readable -> Completion ITokenizer;
  strtok3_fromBuffer : list Byte.byte -> Completion ITokenizer;
  tokenizer_close : nat -> Completion unit;
  path_extname : string -> string;
  getParserIdForExtension : string -> option ParserType;
  loadParser : ParserType -> Options.IOptions -> Completion ITokenParser;
  ParserFactory_parse :
    ITokenizer -> option string -> Options.IOptions -> Completion IAudioMetadata
}.

Context (env : Collaborators).

(** [fileTokenizer.close()] *)
Definition close : Async unit :=
  fun log => (log ++ [Close], tokenizer_close env (closeCount log)).

Definition parseFile (filePath : string) (options : option Options.IOptions)
  : Async IAudioMetadata :=
  let options := default Options.empty options in
  then_ (call (FromFile filePath) (strtok3_fromFile env filePath)) (fun fileTokenizer =>
    match getParserIdForExtension env filePath with
    | Some parserName =>
        then_ (call (LoadParser parserName options) (loadParser env parserName options))
          (fun parser =>
             (* const metadata = new MetadataCollector(options); *)
             then_ (call Init (init parser)) (fun _ =>
               catch_
                 (then_ (call Parse (parse parser)) (fun _ =>
                    then_ close (fun _ => resolve (toCommonMetadata parser))))
                 (fun err => then_ close (fun _ => throw err))))
    | None =>
        throw (Error ("No parser found for extension: " +:+ path_extname env filePath))
    end).

(** [if (!tokenizer.fileSize && options.fileSize) tokenizer.fileSize =
    options.fileSize;] *)
Definition setFileSize (tokenizer : ITokenizer) (options : Options.IOptions) : ITokenizer :=
  if negb (truthy (fileSize tokenizer)) && truthy (Options.fileSize options)
  then {| fileSize := Options.fileSize options |}
  else tokenizer.

Definition parseStream (stream : Readable) (mimeType : option string)
    (options : option Options.IOptions) : Async IAudioMetadata :=
  let options := default Options.empty options in
  then_ (call FromStream (strtok3_fromStream env stream)) (fun tokenizer =>
    let tokenizer := setFileSize tokenizer options in
    call (FactoryParse tokenizer mimeType options)
         (ParserFactory_parse env tokenizer mimeType options)).

(** [strtok3.fromBuffer] is synchronous; an exception it throws leaves
    [parseBuffer] as an exception and not as a rejected promise, which the
    embedding does not tell apart. *)
Definition parseBuffer (buf : list Byte.byte) (mimeType : option string)
    (options : option Options.IOptions) : Async IAudioMetadata :=
  let options := default Options.empty options in
  then_ (call FromBuffer (strtok3_fromBuffer env buf)) (fun tokenizer =>
    let tokenizer := setFileSize tokenizer options in
    call (FactoryParse tokenizer mimeType options)
         (ParserFactory_parse env tokenizer mimeType options)).

(** The tokenizer states handed to [ParserFactory.parse] in a log. *)
Definition handedTokenizers (log : list Event) : list ITokenizer :=
  omap (fun ev => match ev with FactoryParse t _ _ => Some t | _ => None end) log.

End Orchestration.

Arguments ITokenParser IAudioMetadata : clear implicits.
Arguments Collaborators IAudioMetadata Readable : clear implicits.

(** ** Sentences of the specification, as propositions *)

(** [message] contains [part]. *)
Definition includes (message part : string) : Prop :=
  ∃ before after, message = before +:+ part +:+ after.

Section SpecificationSentences.
Context {IAudioMetadata Readable : Type}.
Context (env : Collaborators IAudioMetadata Readable).

(** "[parseFile] on a path whose extension has no registered decoder fails
    with an error whose message includes the rejected extension, before any
    tokenizer work and without opening any decoder." *)
Definition failsBeforeTokenizerWork (filePath : string) : Prop :=
  getParserIdForExtension env filePath = None →
  let '(log, outcome) := parseFile env filePath None [] in
  (∃ message, outcome = Abrupt (Error message) ∧
              includes message (path_extname env filePath)) ∧
  filter (fun ev => isTokenizerWork ev = true) log = [] ∧
  filter (fun ev => isDecoderWork ev = true) log = [].

(** "In [parseStream] and [parseBuffer], if the acquired tokenizer does not
    report a total size and [options.fileSize] is given, that size is applied
    to the tokenizer before [ParserFactory.parse] is invoked." *)
Definition appliesGivenFileSize (stream : Readable) (buf : list Byte.byte)
    (options : Options.IOptions) : Prop :=
  ∀ tokenizer size,
    fileSize tokenizer = None →
    Options.fileSize options = Some size →
    (strtok3_fromStream env stream = Normal tokenizer →
     handedTokenizers (parseStream env stream None (Some options) []).1
     = [ {| fileSize := Some size |} ]) ∧
    (strtok3_fromBuffer env buf = Normal tokenizer →
     handedTokenizers (parseBuffer env buf None (Some options) []).1
     = [ {| fileSize := Some size |} ]).

(** "[parseStream] and [parseBuffer] overwrite the tokenizer's [fileSize]
    with [options.fileSize] exactly when it is absent or zero, and leave it
    unchanged in every other case", for a given [options.fileSize]. *)
Definition overwritesExactlyWhenFalsy (stream : Readable) (buf : list Byte.byte)
    (options : Options.IOptions) : Prop :=
  ∀ tokenizer size,
    Options.fileSize options = Some size →
    let expected :=
      if decide (fileSize tokenizer = None ∨ fileSize tokenizer = Some 0%Z)
      then {| fileSize := Some size |}
      else tokenizer in
    (strtok3_fromStream env stream = Normal tokenizer →
     handedTokenizers (parseStream env stream None (Some options) []).1 = [expected]) ∧
    (strtok3_fromBuffer env buf = Normal tokenizer →
     handedTokenizers (parseBuffer env buf None (Some options) []).1 = [expected]).

End SpecificationSentences.

(** ** Sample collaborators *)

(** The characters of [s] before the first [stop]. *)
Fixpoint upTo (stop : Ascii.ascii) (s : list Ascii.ascii) : list Ascii.ascii :=
  match s with
  | [] => []
  | c :: rest => if decide (c = stop) then [] else c :: upTo stop rest
  end.

(** The extension of the last segment of a path: from its last dot on, empty
    when the segment has no dot or starts with its only dot. It agrees with
    Node's [path.extname] on the paths used below. *)
Definition sampleExtname (filePath : string) : string :=
  let segment := upTo "/"%char (rev (String.list_ascii_of_string filePath)) in
  let extension := upTo "."%char segment in
  if (length segment <=? S (length extension))%nat then ""
  else String.string_of_list_ascii (rev (extension ++ ["."%char])).

(** A decoder registry knowing three extensions. *)
Definition sampleParserId (filePath : string) : option ParserType :=
  let extension := sampleExtname filePath in
  if decide (extension = ".mp3") then Some mpeg
  else if decide (extension = ".flac") then Some flac
  else if decide (extension = ".ogg") then Some ogg
  else None.

(** A parser whose [init] returns and whose [parse()] settles as told. *)
Definition sampleParser (parsed : Completion unit) : ITokenParser string :=
  {| init := Normal tt; parse := parsed; toCommonMetadata := "common" |}.

(** An environment in which every source opens, with a tokenizer reporting
    the total size [size]. *)
Definition sampleEnv (size : option Z) (closed : nat → Completion unit)
    (loaded : Completion (ITokenParser string)) : Collaborators string unit :=
  {| strtok3_fromFile := fun _ => Normal {| fileSize := size |};
     strtok3_fromStream := fun _ => Normal {| fileSize := size |};
     strtok3_fromBuffer := fun _ => Normal {| fileSize := size |};
     tokenizer_close := closed;
     path_extname := sampleExtname;
     getParserIdForExtension := sampleParserId;
     loadParser := fun _ _ => loaded;
     ParserFactory_parse := fun _ _ _ => Normal "common" |}.

Definition closeSucceeds : nat → Completion unit := fun _ => Normal tt.

Definition closeFails : nat → Completion unit := fun _ => Abrupt (Error "EBADF").

(** Options that only give a file size. *)
Definition withFileSize (size : Z) : Options.IOptions :=
  {| Options.path := None; Options.fileSize := Some size; Options.native := None;
     Options.duration := None; Options.skipCovers := None;
     Options.skipPostHeaders := None |}.

(** [close] fails the first time it is called and succeeds afterwards. *)
Definition closeFailsOnce : nat → Completion unit :=
  fun n => match n with 0 => Abrupt (Error "EIO") | _ => Normal tt end.

(** Three native tags, two of them with the same id. *)
Definition sampleTags : list (ITag string) :=
  [ mkTag "TIT2" "Title"; mkTag "COMM" "first"; mkTag "COMM" "second" ].

(** ** Measures used in the properties *)

(** The calls one run of [parseFile] can make, in the order of the source. *)
Definition parseFileCalls (filePath : string) (parserName : ParserType)
    (options : Options.IOptions) : list Event :=
  [ FromFile filePath; LoadParser parserName options; Init; Parse; Close; Close ].

(** The number of characters of all names together. *)
Fixpoint totalLength (names : list string) : nat :=
  match names with
  | [] => 0
  | name :: rest => String.length name + totalLength rest
  end.

(** The number of characters [joinArtists] puts between [n] names: [" & "]
    once and [", "] between the others. *)
Definition separatorLength (n : nat) : nat :=
  match n with
  | 0 | 1 => 0
  | S (S k) => 3 + 2 * k
  end.

(** * Properties *)

(** ** orderTags *)

Section OrderTagsFacts.
Context {V : Type}.
Implicit Types (tags d a b : gmap string (list V)) (T : list (ITag V)) (t : ITag V).

Lemma bindC_Normal {A B : Type} (c : Completion A) (k : A -> Completion B) (b : B) :
  bindC c k = Normal b → ∃ x, c = Normal x ∧ k x = Normal b.
Proof. destruct c as [x|e]; simpl; [eauto | discriminate]. Qed.

Lemma getProperty_own tags k l : tags !! k = Some l → getProperty tags k = OwnArray l.
Proof. unfold getProperty. by intros ->. Qed.

Lemma getProperty_fresh tags k :
  tags !! k = None → k ∉ objectPrototypeKeys → getProperty tags k = Undefined.
Proof. unfold getProperty. intros -> ?. by rewrite decide_False. Qed.

Lemma getProperty_inherited tags k :
  tags !! k = None → k ∈ objectPrototypeKeys → getProperty tags k = InheritedMember.
Proof. unfold getProperty. intros -> ?. by rewrite decide_True. Qed.

(** What one iteration stores: the value goes to the end of its id's group. *)
Lemma pushTag_plain tags t :
  id t ∉ objectPrototypeKeys →
  pushTag tags t = Normal (<[id t := default [] (tags !! id t) ++ [value t]]> tags).
Proof.
  intros Hplain. unfold pushTag.
  destruct (tags !! id t) as [l|] eqn:Hl.
  - by rewrite (getProperty_own _ _ _ Hl).
  - by rewrite (getProperty_fresh _ _ Hl Hplain).
Qed.

Lemma pushTag_inherited tags t :
  tags !! id t = None → id t ∈ objectPrototypeKeys → pushTag tags t = Abrupt TypeError.
Proof. intros Hl Hin. unfold pushTag. by rewrite (getProperty_inherited _ _ Hl Hin). Qed.

(** The loop from any accumulator, on ids that are not members of
    [Object.prototype]: every group is extended by the values of its id, in
    order. *)
Lemma orderTagsFrom_plain T : ∀ tags,
  plainIds T →
  ∃ d, orderTagsFrom tags T = Normal d ∧
       ∀ k, d !! k = match tags !! k with
                     | Some l => Some (l ++ valuesWithId k T)
                     | None => groupOf (valuesWithId k T)
                     end.
Proof.
  induction T as [|t rest IH]; intros tags Hplain.
  - exists tags. split; [done|]. intros k. simpl.
    destruct (tags !! k); [by rewrite app_nil_r | done].
  - apply Forall_cons in Hplain as [Ht Hrest]. simpl.
    rewrite (pushTag_plain _ _ Ht). simpl.
    destruct (IH (<[id t := default [] (tags !! id t) ++ [value t]]> tags) Hrest)
      as (d & Hd & Hlook).
    exists d. split; [done|]. intros k. rewrite Hlook.
    destruct (decide (id t = k)) as [->|Hne].
    + rewrite lookup_insert_eq. destruct (tags !! k) as [l|]; simpl.
      * by rewrite <- app_assoc.
      * done.
    + by rewrite lookup_insert_ne.
Qed.

(** On ids that are not members of [Object.prototype], [orderTags] returns
    the dictionary whose entry at [k] is the non-empty sequence of the values
    tagged [k], in their order in [T]; there is no other entry. *)
Lemma orderTags_plain T :
  plainIds T →
  ∃ d, orderTags T = Normal d ∧ ∀ k, d !! k = groupOf (valuesWithId k T).
Proof.
  intros Hplain. destruct (orderTagsFrom_plain T ∅ Hplain) as (d & Hd & Hlook).
  exists d. split; [done|]. intros k. by rewrite Hlook, lookup_empty.
Qed.

Lemma totalValues_insert tags k l :
  totalValues (<[k := l]> tags) + length (default [] (tags !! k))
  = totalValues tags + length l.
Proof.
  unfold totalValues.
  assert (Hcomm : ∀ (m : gmap string (list V)) (j1 j2 : string) (z1 z2 : list V) (y : nat),
            j1 ≠ j2 → m !! j1 = Some z1 → m !! j2 = Some z2 →
            length z1 + (length z2 + y) = length z2 + (length z1 + y)) by (intros; lia).
  destruct (tags !! k) as [old|] eqn:Hold; simpl.
  - rewrite <- insert_delete_eq.
    rewrite map_fold_insert_L; [|by apply Hcomm | by apply lookup_delete_eq].
    rewrite (map_fold_delete_L _ _ k old tags); [lia | by apply Hcomm | done].
  - rewrite map_fold_insert_L; [lia | by apply Hcomm | done].
Qed.

(** On plain ids every tag adds exactly one value to the dictionary. *)
Lemma orderTagsFrom_plain_count T : ∀ tags d,
  plainIds T → orderTagsFrom tags T = Normal d →
  totalValues d = totalValues tags + length T.
Proof.
  induction T as [|t rest IH]; intros tags d Hplain Hrun; simpl in Hrun.
  - injection Hrun as <-. simpl. lia.
  - apply Forall_cons in Hplain as [Ht Hrest].
    rewrite (pushTag_plain _ _ Ht) in Hrun. simpl in Hrun.
    rewrite (IH _ _ Hrest Hrun). simpl.
    pose proof (totalValues_insert tags (id t) (default [] (tags !! id t) ++ [value t])) as Hins.
    rewrite length_app in Hins. simpl in Hins. lia.
Qed.

Lemma orderTags_plain_count T d :
  plainIds T → orderTags T = Normal d → totalValues d = length T.
Proof. intros Hplain Hrun. by rewrite (orderTagsFrom_plain_count T ∅ d Hplain Hrun). Qed.

Lemma orderTags_nil : orderTags (@nil (ITag V)) = Normal ∅.
Proof. reflexivity. Qed.

(** A dictionary returned by the loop has no own property named like a
    member of [Object.prototype], if the accumulator had none. *)
Lemma pushTag_shadowFree tags t d :
  shadowFree tags → pushTag tags t = Normal d → shadowFree d.
Proof.
  intros Hfree Hpush k Hk.
  destruct (decide (id t ∈ objectPrototypeKeys)) as [Hin|Hout].
  - rewrite (pushTag_inherited _ _ (Hfree _ Hin) Hin) in Hpush. discriminate.
  - rewrite (pushTag_plain _ _ Hout) in Hpush. injection Hpush as <-.
    rewrite lookup_insert_ne; [by apply Hfree | congruence].
Qed.

Lemma orderTagsFrom_shadowFree T : ∀ tags d,
  shadowFree tags → orderTagsFrom tags T = Normal d → shadowFree d.
Proof.
  induction T as [|t rest IH]; intros tags d Hfree Hrun; simpl in Hrun.
  - by injection Hrun as <-.
  - apply bindC_Normal in Hrun as (tags' & Hpush & Hrest).
    eapply IH; [|exact Hrest]. eapply pushTag_shadowFree; eauto.
Qed.

Lemma shadowFree_empty : shadowFree (∅ : gmap string (list V)).
Proof. intros k _. apply lookup_empty. Qed.

(** The loop over a concatenation is the loop over the first list followed
    by the loop over the second one from where the first ended. *)
Lemma orderTagsFrom_app T1 : ∀ T2 tags,
  orderTagsFrom tags (T1 ++ T2) =
  bindC (orderTagsFrom tags T1) (fun d1 => orderTagsFrom d1 T2).
Proof.
  induction T1 as [|t rest IH]; intros T2 tags; simpl; [done|].
  destruct (pushTag tags t) as [tags'|e]; simpl; [apply IH | done].
Qed.

Lemma concatGroups_lookup d1 d2 k :
  concatGroups d1 d2 !! k =
  match d1 !! k, d2 !! k with
  | Some l1, Some l2 => Some (l1 ++ l2)
  | Some l1, None => Some l1
  | None, o => o
  end.
Proof.
  unfold concatGroups. rewrite lookup_union_with.
  by destruct (d1 !! k), (d2 !! k).
Qed.

Lemma concatGroups_empty_r d : concatGroups d ∅ = d.
Proof.
  apply map_eq. intros k. rewrite concatGroups_lookup, lookup_empty.
  by destruct (d !! k).
Qed.

Lemma concatGroups_shadowFree a b : shadowFree a → shadowFree b → shadowFree (concatGroups a b).
Proof. intros Ha Hb k Hk. by rewrite concatGroups_lookup, (Ha k Hk), (Hb k Hk). Qed.

(** Pushing a tag commutes with the per-id concatenation in front. *)
Lemma pushTag_concatGroups a b t :
  shadowFree a → shadowFree b →
  pushTag (concatGroups a b) t = bindC (pushTag b t) (fun d => Normal (concatGroups a d)).
Proof.
  intros Ha Hb.
  destruct (decide (id t ∈ objectPrototypeKeys)) as [Hin|Hout].
  - rewrite (pushTag_inherited b t (Hb _ Hin) Hin).
    by rewrite (pushTag_inherited _ t (concatGroups_shadowFree a b Ha Hb _ Hin) Hin).
  - rewrite !(pushTag_plain _ _ Hout). simpl. f_equal.
    apply map_eq. intros k.
    destruct (decide (id t = k)) as [<-|Hne].
    + rewrite lookup_insert_eq, !concatGroups_lookup, lookup_insert_eq.
      destruct (a !! id t), (b !! id t); simpl; by rewrite ?app_assoc.
    + rewrite lookup_insert_ne, !concatGroups_lookup, lookup_insert_ne by done. done.
Qed.

Lemma orderTagsFrom_concatGroups T : ∀ a b,
  shadowFree a → shadowFree b →
  orderTagsFrom (concatGroups a b) T =
  bindC (orderTagsFrom b T) (fun d => Normal (concatGroups a d)).
Proof.
  induction T as [|t rest IH]; intros a b Ha Hb; simpl; [done|].
  rewrite (pushTag_concatGroups a b t Ha Hb).
  destruct (pushTag b t) as [b'|e] eqn:Hpush; simpl; [|done].
  apply IH; [done|]. eapply pushTag_shadowFree; eauto.
Qed.

(** The loop throws exactly when some tag is named like a member of
    [Object.prototype]. *)
Lemma orderTags_throws_iff T :
  orderTags T = Abrupt TypeError ↔ Exists (fun t => id t ∈ objectPrototypeKeys) T.
Proof.
  split.
  - intros Hthrow. destruct (decide (Exists (fun t => id t ∈ objectPrototypeKeys) T))
      as [Hex|Hnex]; [done|].
    apply not_Exists_Forall in Hnex; [|intros t; apply _].
    destruct (orderTags_plain T) as (d & Hd & _); [exact Hnex|]. congruence.
  - unfold orderTags. generalize shadowFree_empty.
    generalize (∅ : gmap string (list V)) as tags.
    induction T as [|t rest IH]; intros tags Hfree Hex; [by apply Exists_nil in Hex|].
    simpl. destruct (decide (id t ∈ objectPrototypeKeys)) as [Hin|Hout].
    + by rewrite (pushTag_inherited _ _ (Hfree _ Hin) Hin).
    + apply Exists_cons in Hex as [Hex|Hex]; [done|].
      rewrite (pushTag_plain _ _ Hout). simpl. apply IH; [|done].
      eapply pushTag_shadowFree; [exact Hfree | apply (pushTag_plain _ _ Hout)].
Qed.

(** C4 (evaluation at the failing input). A single tag whose id is
    [constructor] makes [orderTags] throw a [TypeError] instead of returning
    the dictionary that holds its value under that id: [tags["constructor"]]
    reads the function inherited from [Object.prototype], which is truthy and
    has no [push]. The same happens wherever such a tag stands in the list. *)
Theorem orderTags_constructor_throws (v : V) (before after : list (ITag V)) :
  orderTags [mkTag "constructor" v] = Abrupt TypeError ∧
  orderTags (before ++ mkTag "constructor" v :: after) = Abrupt TypeError.
Proof.
  split; apply orderTags_throws_iff.
  - apply Exists_cons_hd. simpl. set_solver.
  - apply Exists_app. right. apply Exists_cons_hd. simpl. set_solver.
Qed.

(** C10. [orderTags] maps concatenation of tag lists to per-id concatenation
    of groups: running it on [T1 ++ T2] gives what running it on [T1] and on
    [T2] and concatenating, for each id, the group from [T1] with the group
    from [T2] gives. If one of the two runs throws, so does the run on the
    concatenation, with the same exception. *)
Theorem orderTags_app T1 T2 :
  orderTags (T1 ++ T2) =
  bindC (orderTags T1) (fun d1 =>
    bindC (orderTags T2) (fun d2 => Normal (concatGroups d1 d2))).
Proof.
  unfold orderTags. rewrite orderTagsFrom_app.
  destruct (orderTagsFrom ∅ T1) as [d1|e] eqn:Hrun; simpl; [|done].
  rewrite <- (concatGroups_empty_r d1) at 1.
  apply orderTagsFrom_concatGroups; [|apply shadowFree_empty].
  eapply orderTagsFrom_shadowFree; [apply shadowFree_empty | exact Hrun].
Qed.

End OrderTagsFacts.

(** ** joinArtists *)

Section JoinArtistsFacts.
Implicit Types (s sep : string) (l artists names : list string).

Lemma append_assoc s1 s2 s3 : (s1 +:+ s2) +:+ s3 = s1 +:+ (s2 +:+ s3).
Proof.
  induction s1 as [|c s1 IH]; [done|].
  change (String c ((s1 +:+ s2) +:+ s3) = String c (s1 +:+ (s2 +:+ s3))).
  by rewrite IH.
Qed.

(** The running result of [join] after the first element, seen from the
    left end of the string. *)
Lemma join_loop_separatedBy sep rest : ∀ prefix first,
  fold_left (fun R next => (R +:+ sep) +:+ next) rest (prefix +:+ first) =
  prefix +:+ separatedBy sep (first :: rest).
Proof.
  induction rest as [|x rest IH]; intros prefix first; [done|].
  cbn [fold_left].
  replace (((prefix +:+ first) +:+ sep) +:+ x) with ((prefix +:+ first +:+ sep) +:+ x)
    by (by rewrite !append_assoc).
  rewrite IH. change (separatedBy sep (first :: x :: rest))
    with (first +:+ sep +:+ separatedBy sep (x :: rest)).
  by rewrite !append_assoc.
Qed.

Lemma Array_join_separatedBy sep l : Array_join sep l = separatedBy sep l.
Proof.
  destruct l as [|first rest]; [done|]. unfold Array_join.
  exact (join_loop_separatedBy sep rest "" first).
Qed.

Lemma Array_slice_init {A : Type} (l : list A) :
  l ≠ [] → Array_slice l 0 (Z.of_nat (length l) - 1) = removelast l.
Proof.
  intros Hne. unfold Array_slice.
  assert (0 < length l) by (destruct l; [done | simpl; lia]).
  replace (0 <? 0)%Z with false by done.
  replace (Z.of_nat (length l) - 1 <? 0)%Z with false by lia.
  rewrite Z.min_l, Z.min_l by lia. rewrite Z.sub_0_r. simpl drop.
  rewrite removelast_firstn_len. f_equal. lia.
Qed.

Lemma Array_get_last l :
  l ≠ [] → Array_get l (Z.of_nat (length l) - 1) = Some (List.last l "").
Proof.
  intros Hne. unfold Array_get.
  assert (0 < length l) by (destruct l; [done | simpl; lia]).
  replace (Z.of_nat (length l) - 1 <? 0)%Z with false by lia.
  replace (Z.to_nat (Z.of_nat (length l) - 1)) with (pred (length l)) by lia.
  rewrite <- last_lookup. clear H.
  induction l as [|x [|y l] IH]; [done | done |].
  change (List.last (x :: y :: l) "") with (List.last (y :: l) "").
  rewrite <- IH by done. done.
Qed.

(** C5. For every sequence of names, [joinArtists] returns what the rule
    says: the empty string for no name, the names joined with [" & "] for one
    or two names and, from three names on, all but the last joined with
    [", "], then [" & "], then the last name. In particular
    [joinArtists(["A","B","C"])] is ["A, B & C"] and
    [joinArtists(["A","B","C","D"])] is ["A, B, C & D"]. *)
Theorem joinArtists_spec artists :
  joinArtists artists = joinArtistsSpec artists ∧
  joinArtists [] = "" ∧
  joinArtists ["A"] = "A" ∧
  joinArtists ["A"; "B"] = "A & B" ∧
  joinArtists ["A"; "B"; "C"] = "A, B & C" ∧
  joinArtists ["A"; "B"; "C"; "D"] = "A, B, C & D".
Proof.
  split; [|repeat split; vm_compute; reflexivity].
  destruct artists as [|a [|b [|c rest]]];
    [reflexivity | reflexivity | exact (Array_join_separatedBy " & " [a; b]) |].
  unfold joinArtists, joinArtistsSpec.
  set (l := a :: b :: c :: rest).
  assert (Hne : l ≠ []) by done.
  assert (Hlen : (2 <? Z.of_nat (length l))%Z = true)
    by (apply Z.ltb_lt; subst l; cbn [length]; lia).
  rewrite Hlen.
  rewrite (Array_slice_init l Hne), (Array_get_last l Hne), Array_join_separatedBy.
  simpl toStringOperand. subst l. cbn [length]. by rewrite append_assoc.
Qed.

End JoinArtistsFacts.

(** ** ratingToStars *)

Section RatingToStarsFacts.
Local Open Scope Q_scope.

Lemma Qred_inject_Z (n : Z) : Qred (inject_Z n) = inject_Z n.
Proof. apply Qcanon.Qred_identity. simpl. apply Z.gcd_1_r. Qed.

(** On a finite rating the result is the integer [1 + floor(4 q + 1/2)]. *)
Lemma ratingToStars_finite (q : Q) :
  ratingToStars (Some (Finite q)) = ofZ (1 + Qfloor (q * 4 + (1 # 2))).
Proof.
  unfold ratingToStars, Number_mul, Math_round, Number_add, ofZ. f_equal.
  rewrite (Qfloor_comp (Qred (q * 4) + (1 # 2)) (q * 4 + (1 # 2)))
    by (by rewrite Qred_correct).
  rewrite <- (Qred_inject_Z (1 + _)). apply Qred_complete.
  by rewrite inject_Z_plus.
Qed.

(** [floor(x + 1/2)] is an integer closest to [x]. *)
Lemma Qfloor_half_nearest (x : Q) :
  inject_Z (Qfloor (x + (1 # 2))) - (1 # 2) <= x ∧
  x < inject_Z (Qfloor (x + (1 # 2))) + (1 # 2).
Proof.
  pose proof (Qfloor_le (x + (1 # 2))) as Hle.
  pose proof (Qlt_floor (x + (1 # 2))) as Hlt.
  rewrite inject_Z_plus in Hlt. split.
  - apply (Qplus_le_l _ _ (1 # 2)). ring_simplify. ring_simplify in Hle. exact Hle.
  - apply (Qplus_lt_l _ _ (1 # 2)).
    eapply Qlt_le_trans; [exact Hlt|]. apply Qle_lteq. right.
    change (inject_Z 1) with 1. ring.
Qed.

(** Exactly halfway between [k] and [k + 1], the larger integer is taken. *)
Lemma Qfloor_half_tie (x : Q) (k : Z) :
  x == inject_Z k + (1 # 2) → Qfloor (x + (1 # 2)) = (k + 1)%Z.
Proof.
  intros Hx. rewrite <- (Qfloor_Z (k + 1)). apply Qfloor_comp.
  rewrite Hx, inject_Z_plus. change (inject_Z 1) with 1. ring.
Qed.

End RatingToStarsFacts.

(** ** ratingToStars on doubles *)

Section Binary64Facts.
Local Open Scope Z_scope.

Lemma digits2_pos_bound (m : positive) : Zpos m < 2 ^ Zpos (digits2_pos m).
Proof.
  induction m as [m IH|m IH|]; cbn [digits2_pos]; [| |done].
  - rewrite Pos2Z.inj_succ, Z.pow_succ_r by lia. lia.
  - rewrite Pos2Z.inj_succ, Z.pow_succ_r by lia. lia.
Qed.

Lemma bounded_canonical (m : positive) (e : Z) :
  bounded Binary64.prec Binary64.emax m e = true →
  Z.max (Zpos (digits2_pos m) + e - 53) (-1074) = e ∧ e <= 971.
Proof.
  unfold bounded, canonical_mantissa, fexp, emin, Binary64.prec, Binary64.emax.
  intros [Hcanon Hle]%andb_true_iff. apply Z.eqb_eq in Hcanon. apply Z.leb_le in Hle.
  split; [exact Hcanon | exact Hle].
Qed.

(** The last step of rounding leaves a mantissa with its canonical exponent
    as it is. *)
Lemma round_canonical_step (s : bool) (m : positive) (e : Z) :
  bounded Binary64.prec Binary64.emax m e = true →
  (let '(mrs, e') := shr_fexp Binary64.prec Binary64.emax (Zpos m) e loc_Exact in
   match shr_m mrs with
   | Z0 => S754_zero s
   | Zpos m' => if e' <=? Binary64.emax - Binary64.prec then S754_finite s m' e'
                else S754_infinity s
   | Zneg _ => S754_nan
   end) = S754_finite s m e.
Proof.
  intros [Hcanon Hmax]%bounded_canonical.
  assert (Hshift : fexp Binary64.prec Binary64.emax (Zdigits2 (Zpos m) + e) - e = 0).
  { unfold fexp, emin, Binary64.prec, Binary64.emax. cbn [Zdigits2]. lia. }
  unfold shr_fexp. rewrite Hshift. cbn [shr shr_record_of_loc shr_m].
  replace (e <=? Binary64.emax - Binary64.prec) with true; [done|].
  symmetry. apply Z.leb_le. unfold Binary64.prec, Binary64.emax. lia.
Qed.

(** Rounding [m * 2 ^ k] at an exponent [k] below a canonical one shifts the
    [k] zero bits out again. *)
Lemma binary_round_aux_shifted (s : bool) (m : positive) (e : Z) (k : positive) :
  bounded Binary64.prec Binary64.emax m e = true →
  iter_pos shr_1 k (shr_record_of_loc (Zpos (Pos.iter xO m k)) loc_Exact)
  = shr_record_of_loc (Zpos m) loc_Exact →
  Zpos (digits2_pos (Pos.iter xO m k)) = Zpos (digits2_pos m) + Zpos k →
  binary_round_aux Binary64.prec Binary64.emax s (Zpos (Pos.iter xO m k)) (e - Zpos k) loc_Exact
  = S754_finite s m e.
Proof.
  intros Hbounded Hiter Hdigits. pose proof Hbounded as [Hcanon Hmax]%bounded_canonical.
  rewrite <- (round_canonical_step s m e Hbounded).
  unfold binary_round_aux. unfold shr_fexp at 1.
  assert (Hshift : fexp Binary64.prec Binary64.emax
                     (Zdigits2 (Zpos (Pos.iter xO m k)) + (e - Zpos k)) - (e - Zpos k)
                   = Zpos k).
  { unfold fexp, emin, Binary64.prec, Binary64.emax. cbn [Zdigits2]. rewrite Hdigits. lia. }
  rewrite Hshift. cbn [shr]. rewrite Hiter.
  replace (e - Zpos k + Zpos k) with e by lia.
  cbn [shr_record_of_loc shr_m loc_of_shr_record round_nearest_even].
  reflexivity.
Qed.

Lemma shift_out (m : positive) (k : positive) :
  k = 50%positive ∨ k = 51%positive ∨ k = 52%positive →
  iter_pos shr_1 k (shr_record_of_loc (Zpos (Pos.iter xO m k)) loc_Exact)
  = shr_record_of_loc (Zpos m) loc_Exact ∧
  Zpos (digits2_pos (Pos.iter xO m k)) = Zpos (digits2_pos m) + Zpos k.
Proof.
  intros [->|[->| ->]]; (split; [reflexivity|]);
    cbn [Pos.iter digits2_pos]; lia.
Qed.

Lemma bounded_intro (m : positive) (e : Z) :
  Z.max (Zpos (digits2_pos m) + e - 53) (-1074) = e → e <= 971 →
  bounded Binary64.prec Binary64.emax m e = true.
Proof.
  intros Hcanon Hmax.
  unfold bounded, canonical_mantissa, fexp, emin, Binary64.prec, Binary64.emax.
  apply andb_true_iff. split; [apply Z.eqb_eq | apply Z.leb_le]; lia.
Qed.

(** The product of a double not above [1] by [4] is exact: the result has
    the same bits with the exponent moved by two, or, for the subnormal
    numbers, up to two more zero bits. *)
Lemma mul_four (m : positive) (e : Z) :
  bounded Binary64.prec Binary64.emax m e = true → e <= -52 →
  ∃ m' e', Binary64.mul (S754_finite false m e) (Binary64.dyadic 4 0) = S754_finite false m' e' ∧
           e' <= -50 ∧ Zpos m' * 2 ^ (- e) = 4 * Zpos m * 2 ^ (- e').
Proof.
  intros Hbounded Hle. pose proof Hbounded as [Hcanon Hmax]%bounded_canonical.
  change (Binary64.dyadic 4 0) with (S754_finite false 4503599627370496 (-50)).
  unfold Binary64.mul, SFmul. cbn [xorb].
  replace (m * 4503599627370496)%positive with (Pos.iter xO m 52)
    by (rewrite Pos.mul_comm; reflexivity).
  destruct (Z.lt_total (Zpos (digits2_pos m)) 52) as [Hsmall|[Hmid|Hfull]].
  - (* at most 51 bits: a subnormal number, two zero bits are kept *)
    exists (m~0~0)%positive, e. split; [|split; [lia|lia]].
    destruct (shift_out (m~0~0) 50) as [Hiter Hdigits]; [by left|].
    replace (e + -50) with (e - 50) by lia.
    apply (binary_round_aux_shifted false (m~0~0) e 50); [|exact Hiter|exact Hdigits].
    apply bounded_intro; [|lia]. cbn [digits2_pos]. lia.
  - (* 52 bits: a subnormal number, one zero bit is kept *)
    exists (m~0)%positive, (e + 1). split; [|split; [lia|]].
    + destruct (shift_out (m~0) 51) as [Hiter Hdigits]; [by right; left|].
      replace (e + -50) with (e + 1 - 51) by lia.
      apply (binary_round_aux_shifted false (m~0) (e + 1) 51); [|exact Hiter|exact Hdigits].
      apply bounded_intro; [|lia]. cbn [digits2_pos]. lia.
    + replace (- e) with (1 + - (e + 1)) by lia. rewrite Z.pow_add_r by lia. lia.
  - (* 53 bits: a normal number *)
    exists m, (e + 2). split; [|split; [lia|]].
    + destruct (shift_out m 52) as [Hiter Hdigits]; [by right; right|].
      replace (e + -50) with (e + 2 - 52) by lia.
      apply (binary_round_aux_shifted false m (e + 2) 52); [|exact Hiter|exact Hdigits].
      apply bounded_intro; lia.
    + replace (- e) with (2 + - (e + 2)) by lia. rewrite Z.pow_add_r by lia. lia.
Qed.

(** A double between [0] and [1]: its exponent and its mantissa. *)
Lemma unit_interval_bits (m : positive) (e : Z) :
  bounded Binary64.prec Binary64.emax m e = true →
  SFleb (S754_finite false m e) (Binary64.dyadic 1 0) = true →
  e <= -52 ∧ Zpos m <= 2 ^ (- e).
Proof.
  intros [Hcanon Hmax]%bounded_canonical.
  change (Binary64.dyadic 1 0) with (S754_finite false 4503599627370496 (-52)).
  assert (Hone : 2 ^ 52 = Zpos 4503599627370496) by reflexivity.
  revert Hone. generalize 4503599627370496%positive as one. intros one Hone.
  unfold SFleb, SFcompare.
  destruct (Z.compare_spec e (-52)) as [->|Hlt|Hgt]; [| |discriminate].
  - intros Hle. split; [lia|]. change (- -52) with 52. rewrite Hone.
    change (m <= one)%positive. unfold Pos.le, Pos.compare.
    destruct (Pos.compare_cont Eq m one); [done | done | discriminate Hle].
  - intros _. split; [lia|].
    pose proof (digits2_pos_bound m) as Hdigits.
    assert (2 ^ Zpos (digits2_pos m) <= 2 ^ (- e)) by (apply Z.pow_le_mono_r; lia).
    lia.
Qed.

(** Rounding a double between [0] and [4] and adding [1]. *)
Lemma round_add_one (m : positive) (e : Z) :
  e < 0 → Zpos m <= 4 * 2 ^ (- e) →
  let n := (Zpos m * 2 + 2 ^ (- e)) / 2 ^ (1 - e) in
  0 <= n <= 4 ∧
  Binary64.add (Binary64.dyadic 1 0) (Binary64.Math_round (S754_finite false m e))
  = Binary64.dyadic (1 + n) 0.
Proof.
  intros He Hm. cbv zeta.
  remember ((Zpos m * 2 + 2 ^ (- e)) / 2 ^ (1 - e)) as n eqn:Hdef.
  assert (Hpow : 2 ^ (1 - e) = 2 * 2 ^ (- e)).
  { replace (1 - e) with (1 + - e) by lia. rewrite Z.pow_add_r by lia. lia. }
  assert (Hpos : 0 < 2 ^ (- e)) by (apply Z.pow_pos_nonneg; lia).
  assert (Hn : 0 <= n <= 4).
  { rewrite Hdef, Hpow. split.
    - apply Z.div_pos; lia.
    - apply Z.lt_succ_r. apply Z.div_lt_upper_bound; lia. }
  split; [exact Hn|].
  unfold Binary64.Math_round. replace (0 <=? e) with false by lia.
  cbn [cond_Zopp]. rewrite <- Hdef. clear Hdef Hpow Hpos Hm He.
  assert (Hcases : n = 0 ∨ n = 1 ∨ n = 2 ∨ n = 3 ∨ n = 4) by lia.
  clear Hn. destruct Hcases as [->|[->|[->|[->| ->]]]]; vm_compute; reflexivity.
Qed.

(** The exact model on the value of a double with a negative exponent. *)
Lemma ratingToStars_value (m : positive) (e : Z) :
  e < 0 →
  ratingToStars (Some (Binary64.value (S754_finite false m e)))
  = ofZ (1 + (8 * Zpos m + 2 ^ (- e)) / (2 * 2 ^ (- e))).
Proof.
  intros He. unfold Binary64.value. replace (0 <=? e) with false by lia.
  cbn [cond_Zopp]. rewrite ratingToStars_finite. do 2 f_equal.
  assert (Hpos : 0 < 2 ^ (- e)) by (apply Z.pow_pos_nonneg; lia).
  rewrite (Qfloor_comp _ ((Zpos m # Z.to_pos (2 ^ (- e))) * 4 + (1 # 2))%Q)
    by (by rewrite Qred_correct).
  unfold Qfloor, Qplus, Qmult. cbn [Qnum Qden].
  rewrite !Pos2Z.inj_mul, Z2Pos.id by exact Hpos. f_equal; lia.
Qed.

(** On every double between [0] and [1] the bit-level evaluation and the
    exact model give the same number of stars, between [1] and [5]. *)
Lemma ratingToStars_binary64_unit_interval (r : spec_float) :
  valid_binary Binary64.prec Binary64.emax r = true →
  SFleb (Binary64.dyadic 0 0) r = true →
  SFleb r (Binary64.dyadic 1 0) = true →
  ∃ stars : Z,
    1 <= stars <= 5 ∧
    Binary64.ratingToStars (Some r) = Binary64.dyadic stars 0 ∧
    ratingToStars (Some (Binary64.value r)) = ofZ stars.
Proof.
  intros Hvalid Hlow Hhigh.
  destruct r as [s|s| |s m e]; [|by destruct s|discriminate|].
  { exists 1. by destruct s. }
  destruct s; [discriminate|]. cbn [valid_binary] in Hvalid.
  destruct (unit_interval_bits m e Hvalid Hhigh) as [He Hm].
  destruct (mul_four m e Hvalid He) as (m' & e' & Hmul & He' & Hscale).
  assert (Hpe : 0 < 2 ^ (- e)) by (apply Z.pow_pos_nonneg; lia).
  assert (Hpe' : 0 < 2 ^ (- e')) by (apply Z.pow_pos_nonneg; lia).
  assert (Hm' : Zpos m' <= 4 * 2 ^ (- e')).
  { apply (Z.mul_le_mono_pos_r _ _ (2 ^ (- e))); [exact Hpe|]. rewrite Hscale. nia. }
  destruct (round_add_one m' e') as [Hn Hadd]; [lia | exact Hm' |].
  exists (1 + (Zpos m' * 2 + 2 ^ (- e')) / 2 ^ (1 - e')). split; [lia|]. split.
  - unfold Binary64.ratingToStars. by rewrite Hmul.
  - rewrite (ratingToStars_value m e) by lia. do 2 f_equal.
    replace (1 - e') with (1 + - e') by lia. rewrite Z.pow_add_r by lia.
    change (2 ^ 1) with 2.
    rewrite <- (Z.div_mul_cancel_r (8 * Zpos m + 2 ^ (- e)) (2 * 2 ^ (- e)) (2 ^ (- e')))
      by lia.
    rewrite <- (Z.div_mul_cancel_r (Zpos m' * 2 + 2 ^ (- e')) (2 * 2 ^ (- e')) (2 ^ (- e)))
      by lia.
    f_equal; lia.
Qed.
End Binary64Facts.

(** ** ratingToStars: the two evaluations together *)

Section RatingToStarsResults.
Local Open Scope Q_scope.

Lemma ofZ_inj (a b : Z) : ofZ a = ofZ b → a = b.
Proof. unfold ofZ, inject_Z. by intros [= ->]. Qed.

(** C6. [ratingToStars] returns [0] for an unset rating and otherwise
    [1 + round(rating * 4)], where [round] yields an integer closest to its
    argument; for a rating in [[0,1]] the result is an integer between [0] and
    [5] (in fact between [1] and [5]); and [ratingToStars(0) = 1],
    [ratingToStars(0.5) = 3], [ratingToStars(1) = 5]. This holds in exact
    arithmetic and, bit for bit, on the doubles between [0] and [1]. *)
Theorem ratingToStars_spec (q : Q) (r : spec_float) :
  (ratingToStars None = ofZ 0 ∧
   Binary64.ratingToStars None = Binary64.dyadic 0 0) ∧
  (∃ n : Z, ratingToStars (Some (Finite q)) = ofZ (1 + n) ∧
            inject_Z n - (1 # 2) <= q * 4 ∧ q * 4 < inject_Z n + (1 # 2)) ∧
  (0 <= q ∧ q <= 1 →
   ∃ stars : Z, ratingToStars (Some (Finite q)) = ofZ stars ∧
                (0 <= stars <= 5)%Z ∧ (1 <= stars)%Z) ∧
  (valid_binary Binary64.prec Binary64.emax r = true ∧
   SFleb (Binary64.dyadic 0 0) r = true ∧ SFleb r (Binary64.dyadic 1 0) = true →
   ∃ stars : Z, Binary64.ratingToStars (Some r) = Binary64.dyadic stars 0 ∧
                ratingToStars (Some (Binary64.value r)) = ofZ stars ∧
                (0 <= stars <= 5)%Z ∧ (1 <= stars)%Z) ∧
  (ratingToStars (Some (Finite 0)) = ofZ 1 ∧
   ratingToStars (Some (Finite (1 # 2))) = ofZ 3 ∧
   ratingToStars (Some (Finite 1)) = ofZ 5) ∧
  (Binary64.ratingToStars (Some (Binary64.dyadic 0 0)) = Binary64.dyadic 1 0 ∧
   Binary64.ratingToStars (Some (Binary64.dyadic 1 (-1))) = Binary64.dyadic 3 0 ∧
   Binary64.ratingToStars (Some (Binary64.dyadic 1 0)) = Binary64.dyadic 5 0).
Proof.
  split; [by split|]. split; [|split; [|split; [|split; [by repeat split|]]]].
  - exists (Qfloor (q * 4 + (1 # 2))). split; [apply ratingToStars_finite|].
    apply Qfloor_half_nearest.
  - intros [Hlo Hhi]. exists (1 + Qfloor (q * 4 + (1 # 2)))%Z.
    split; [apply ratingToStars_finite|].
    assert (Hmin : (Qfloor (0 * 4 + (1 # 2)) <= Qfloor (q * 4 + (1 # 2)))%Z).
    { apply Qfloor_resp_le, Qplus_le_l, Qmult_le_compat_r; [exact Hlo | done]. }
    assert (Hmax : (Qfloor (q * 4 + (1 # 2)) <= Qfloor (1 * 4 + (1 # 2)))%Z).
    { apply Qfloor_resp_le, Qplus_le_l, Qmult_le_compat_r; [exact Hhi | done]. }
    change (Qfloor (0 * 4 + (1 # 2))) with 0%Z in Hmin.
    change (Qfloor (1 * 4 + (1 # 2))) with 4%Z in Hmax. lia.
  - intros (Hvalid & Hlow & Hhigh).
    destruct (ratingToStars_binary64_unit_interval r Hvalid Hlow Hhigh)
      as (stars & Hrange & Hbits & Hexact).
    exists stars. repeat split; [exact Hbits | exact Hexact | lia | lia | lia].
  - repeat split; vm_compute; reflexivity.
Qed.

(** C8. When [rating * 4] lies exactly halfway between the integers [k] and
    [k + 1], [ratingToStars] rounds up to [k + 1] before adding [1]; so
    [ratingToStars(0.125) = 2], [ratingToStars(0.375) = 3],
    [ratingToStars(0.625) = 4] and [ratingToStars(0.875) = 5]. This holds in
    exact arithmetic and, bit for bit, on the doubles between [0] and [1]. *)
Theorem ratingToStars_tie_up (q : Q) (k : Z) (r : spec_float) :
  (q * 4 == inject_Z k + (1 # 2) →
   ratingToStars (Some (Finite q)) = ofZ (1 + (k + 1))) ∧
  (valid_binary Binary64.prec Binary64.emax r = true ∧
   SFleb (Binary64.dyadic 0 0) r = true ∧ SFleb r (Binary64.dyadic 1 0) = true →
   Binary64.value r = Finite q → q * 4 == inject_Z k + (1 # 2) →
   Binary64.ratingToStars (Some r) = Binary64.dyadic (1 + (k + 1)) 0) ∧
  (ratingToStars (Some (Finite (1 # 8))) = ofZ 2 ∧
   ratingToStars (Some (Finite (3 # 8))) = ofZ 3 ∧
   ratingToStars (Some (Finite (5 # 8))) = ofZ 4 ∧
   ratingToStars (Some (Finite (7 # 8))) = ofZ 5) ∧
  (Binary64.ratingToStars (Some (Binary64.dyadic 1 (-3))) = Binary64.dyadic 2 0 ∧
   Binary64.ratingToStars (Some (Binary64.dyadic 3 (-3))) = Binary64.dyadic 3 0 ∧
   Binary64.ratingToStars (Some (Binary64.dyadic 5 (-3))) = Binary64.dyadic 4 0 ∧
   Binary64.ratingToStars (Some (Binary64.dyadic 7 (-3))) = Binary64.dyadic 5 0).
Proof.
  assert (Htie : q * 4 == inject_Z k + (1 # 2) →
                 ratingToStars (Some (Finite q)) = ofZ (1 + (k + 1))).
  { intros Hhalf. rewrite ratingToStars_finite. by rewrite (Qfloor_half_tie _ k Hhalf). }
  split; [exact Htie|]. split; [|split; [by repeat split|]].
  - intros (Hvalid & Hlow & Hhigh) Hvalue Hhalf.
    destruct (ratingToStars_binary64_unit_interval r Hvalid Hlow Hhigh)
      as (stars & _ & Hbits & Hexact).
    rewrite Hvalue, (Htie Hhalf) in Hexact. apply ofZ_inj in Hexact.
    by rewrite Hbits, <- Hexact.
  - repeat split; vm_compute; reflexivity.
Qed.

End RatingToStarsResults.

(** ** Parsing orchestration *)

Section OrchestrationFacts.
Context {IAudioMetadata Readable : Type}.
Context (env : Collaborators IAudioMetadata Readable).
Implicit Types (log : list Event) (options : option Options.IOptions).
Implicit Types (parser : ITokenParser IAudioMetadata) (e err : Exn).

Lemma closeCount_app log1 log2 :
  closeCount (log1 ++ log2) = closeCount log1 + closeCount log2.
Proof. unfold closeCount. by rewrite filter_app, length_app. Qed.

(** Unfolds one run of an entry point down to the collaborators' answers. *)
Ltac run_entry :=
  unfold parseFile, parseStream, parseBuffer, then_, catch_, call, close, resolve, throw;
  cbn beta iota.

Ltac tidy_log :=
  rewrite <- ?app_assoc; cbn [app]; rewrite ?closeCount_app;
  repeat match goal with
         | |- context [closeCount (?ev :: ?l)] =>
             let n := eval cbv in (closeCount (ev :: l)) in
             change (closeCount (ev :: l)) with n
         end;
  rewrite ?Nat.add_0_r, ?Nat.add_1_r.

(** *** The paths through [parseFile] *)

Lemma parseFile_open_fails filePath options log e :
  strtok3_fromFile env filePath = Abrupt e →
  parseFile env filePath options log = (log ++ [FromFile filePath], Abrupt e).
Proof. intros Hopen. run_entry. by rewrite Hopen. Qed.

Lemma parseFile_no_parser filePath options log tokenizer :
  strtok3_fromFile env filePath = Normal tokenizer →
  getParserIdForExtension env filePath = None →
  parseFile env filePath options log =
  (log ++ [FromFile filePath],
   Abrupt (Error ("No parser found for extension: " +:+ path_extname env filePath))).
Proof. intros Hopen Hid. run_entry. by rewrite Hopen, Hid. Qed.

Lemma parseFile_load_fails filePath options log tokenizer parserName e :
  strtok3_fromFile env filePath = Normal tokenizer →
  getParserIdForExtension env filePath = Some parserName →
  loadParser env parserName (default Options.empty options) = Abrupt e →
  parseFile env filePath options log =
  (log ++ [FromFile filePath; LoadParser parserName (default Options.empty options)],
   Abrupt e).
Proof. intros Hopen Hid Hload. run_entry. rewrite Hopen, Hid, Hload. by tidy_log. Qed.

Lemma parseFile_init_throws filePath options log tokenizer parserName parser e :
  strtok3_fromFile env filePath = Normal tokenizer →
  getParserIdForExtension env filePath = Some parserName →
  loadParser env parserName (default Options.empty options) = Normal parser →
  init parser = Abrupt e →
  parseFile env filePath options log =
  (log ++ [FromFile filePath; LoadParser parserName (default Options.empty options); Init],
   Abrupt e).
Proof.
  intros Hopen Hid Hload Hinit. run_entry. rewrite Hopen, Hid, Hload, Hinit. by tidy_log.
Qed.

Lemma parseFile_parse_rejects filePath options log tokenizer parserName parser u err :
  strtok3_fromFile env filePath = Normal tokenizer →
  getParserIdForExtension env filePath = Some parserName →
  loadParser env parserName (default Options.empty options) = Normal parser →
  init parser = Normal u →
  parse parser = Abrupt err →
  parseFile env filePath options log =
  (log ++ [FromFile filePath; LoadParser parserName (default Options.empty options);
           Init; Parse; Close],
   match tokenizer_close env (closeCount log) with
   | Normal _ => Abrupt err
   | Abrupt closeError => Abrupt closeError
   end).
Proof.
  intros Hopen Hid Hload Hinit Hparse. run_entry.
  rewrite Hopen, Hid, Hload, Hinit, Hparse. tidy_log.
  by destruct (tokenizer_close env (closeCount log)).
Qed.

Lemma parseFile_parsed filePath options log tokenizer parserName parser u u' :
  strtok3_fromFile env filePath = Normal tokenizer →
  getParserIdForExtension env filePath = Some parserName →
  loadParser env parserName (default Options.empty options) = Normal parser →
  init parser = Normal u →
  parse parser = Normal u' →
  parseFile env filePath options log =
  match tokenizer_close env (closeCount log) with
  | Normal _ =>
      (log ++ [FromFile filePath; LoadParser parserName (default Options.empty options);
               Init; Parse; Close],
       Normal (toCommonMetadata parser))
  | Abrupt closeError =>
      (log ++ [FromFile filePath; LoadParser parserName (default Options.empty options);
               Init; Parse; Close; Close],
       match tokenizer_close env (S (closeCount log)) with
       | Normal _ => Abrupt closeError
       | Abrupt closeError' => Abrupt closeError'
       end)
  end.
Proof.
  intros Hopen Hid Hload Hinit Hparse. run_entry.
  rewrite Hopen, Hid, Hload, Hinit, Hparse. tidy_log.
  destruct (tokenizer_close env (closeCount log)); tidy_log; [done|].
  by destruct (tokenizer_close env (S (closeCount log))).
Qed.

(** Once [parse()] has been called, [close] is called exactly once, unless
    [parse()] is fulfilled and the first [close] is rejected. *)
Lemma parseFile_closes_once filePath options tokenizer parserName parser u :
  strtok3_fromFile env filePath = Normal tokenizer →
  getParserIdForExtension env filePath = Some parserName →
  loadParser env parserName (default Options.empty options) = Normal parser →
  init parser = Normal u →
  (∃ err, parse parser = Abrupt err) ∨ (∃ u', tokenizer_close env 0 = Normal u') →
  closeCount (parseFile env filePath options []).1 = 1.
Proof.
  intros Hopen Hid Hload Hinit Hcase.
  destruct (parse parser) as [u'|err] eqn:Hparse.
  - rewrite (parseFile_parsed _ _ _ _ _ _ _ _ Hopen Hid Hload Hinit Hparse).
    destruct Hcase as [[? ?]|[? Hclose]]; [done|].
    change (closeCount []) with 0. by rewrite Hclose.
  - by rewrite (parseFile_parse_rejects _ _ _ _ _ _ _ _ Hopen Hid Hload Hinit Hparse).
Qed.


(** C2 (amended). On a path whose extension has no registered decoder,
    [parseFile] first opens the tokenizer over the file. Once it is open, the
    promise is rejected with the error whose message is
    ["No parser found for extension: "] followed by the path's extension, and
    no decoder has been loaded, initialised or run. If opening the file fails,
    that failure is what the caller observes. *)
Theorem parseFile_unsupported_extension filePath options log :
  getParserIdForExtension env filePath = None →
  (∀ tokenizer, strtok3_fromFile env filePath = Normal tokenizer →
     ∃ message,
       parseFile env filePath options log
       = (log ++ [FromFile filePath], Abrupt (Error message)) ∧
       message = "No parser found for extension: " +:+ path_extname env filePath ∧
       includes message (path_extname env filePath) ∧
       filter (fun ev => isDecoderWork ev = true) [FromFile filePath] = []) ∧
  (∀ e, strtok3_fromFile env filePath = Abrupt e →
     parseFile env filePath options log = (log ++ [FromFile filePath], Abrupt e)).
Proof.
  intros Hid. split.
  - intros tokenizer Hopen. eexists. split; [by apply (parseFile_no_parser _ _ _ tokenizer)|].
    split; [done|]. split; [|done].
    exists "No parser found for extension: ", "".
    generalize (path_extname env filePath) as extension. intros extension.
    f_equal. induction extension as [|c extension IH]; [done|].
    change (String c extension = String c (extension +:+ "")). by f_equal.
  - intros e Hopen. by apply parseFile_open_fails.
Qed.

(** C3. When the decoder's [parse()] rejects with [err], [parseFile] calls
    the tokenizer's [close] next and nothing after it; if that [close] is
    fulfilled the caller gets [err] itself, and the caller gets the close
    error only if that [close] is rejected. *)
Theorem parseFile_rejection_closes_then_rethrows
    filePath options log tokenizer parserName parser u err :
  strtok3_fromFile env filePath = Normal tokenizer →
  getParserIdForExtension env filePath = Some parserName →
  loadParser env parserName (default Options.empty options) = Normal parser →
  init parser = Normal u →
  parse parser = Abrupt err →
  ∃ outcome : Completion IAudioMetadata,
    parseFile env filePath options log
    = (log ++ [FromFile filePath; LoadParser parserName (default Options.empty options);
               Init; Parse; Close], outcome) ∧
    (∀ u', tokenizer_close env (closeCount log) = Normal u' → outcome = Abrupt err) ∧
    (∀ closeError, tokenizer_close env (closeCount log) = Abrupt closeError →
                   outcome = Abrupt closeError) ∧
    (outcome ≠ Abrupt err → ∃ closeError, tokenizer_close env (closeCount log) = Abrupt closeError).
Proof.
  intros Hopen Hid Hload Hinit Hparse. eexists. split.
  - by apply (parseFile_parse_rejects _ _ _ tokenizer _ parser u).
  - destruct (tokenizer_close env (closeCount log)) as [u'|closeError].
    + split; [done|]. split; [done|]. by intros [].
    + split; [done|]. split; [by intros ? [= ->]|]. eauto.
Qed.

(** *** The file size handed to [ParserFactory.parse] *)

Lemma truthy_false (n : option Z) : truthy n = false ↔ n = None ∨ n = Some 0%Z.
Proof.
  destruct n as [z|]; simpl; [|by split; [left|]].
  rewrite negb_false_iff, Z.eqb_eq. split; [by intros ->; right|].
  by intros [?|[=]].
Qed.

Lemma truthy_true (n : option Z) : truthy n = true ↔ ∃ z, n = Some z ∧ z ≠ 0%Z.
Proof.
  destruct n as [z|]; simpl.
  - rewrite negb_true_iff, Z.eqb_neq. split; [by eauto|]. by intros (? & [= <-] & ?).
  - split; [done|]. by intros (? & ? & ?).
Qed.

Lemma setFileSize_overwrites tokenizer opts :
  fileSize tokenizer = None ∨ fileSize tokenizer = Some 0%Z →
  (∃ size, Options.fileSize opts = Some size ∧ size ≠ 0%Z) →
  setFileSize tokenizer opts = {| fileSize := Options.fileSize opts |}.
Proof.
  intros Hfalsy%truthy_false Htruthy%truthy_true. unfold setFileSize.
  by rewrite Hfalsy, Htruthy.
Qed.

Lemma setFileSize_unchanged tokenizer opts :
  ¬ ((fileSize tokenizer = None ∨ fileSize tokenizer = Some 0%Z) ∧
     (∃ size, Options.fileSize opts = Some size ∧ size ≠ 0%Z)) →
  setFileSize tokenizer opts = tokenizer.
Proof.
  intros Hnot. unfold setFileSize.
  destruct (truthy (fileSize tokenizer)) eqn:Htok; [done|].
  destruct (truthy (Options.fileSize opts)) eqn:Hopt; [|done].
  destruct Hnot. split; [by apply truthy_false | by apply truthy_true].
Qed.

Lemma parseStream_opened stream mimeType options log tokenizer :
  strtok3_fromStream env stream = Normal tokenizer →
  parseStream env stream mimeType options log =
  (log ++ [FromStream;
           FactoryParse (setFileSize tokenizer (default Options.empty options)) mimeType
             (default Options.empty options)],
   ParserFactory_parse env (setFileSize tokenizer (default Options.empty options)) mimeType
     (default Options.empty options)).
Proof. intros Hopen. run_entry. rewrite Hopen. by rewrite <- app_assoc. Qed.

Lemma parseBuffer_opened buf mimeType options log tokenizer :
  strtok3_fromBuffer env buf = Normal tokenizer →
  parseBuffer env buf mimeType options log =
  (log ++ [FromBuffer;
           FactoryParse (setFileSize tokenizer (default Options.empty options)) mimeType
             (default Options.empty options)],
   ParserFactory_parse env (setFileSize tokenizer (default Options.empty options)) mimeType
     (default Options.empty options)).
Proof. intros Hopen. run_entry. rewrite Hopen. by rewrite <- app_assoc. Qed.

(** C7 (amended). In [parseStream] and [parseBuffer], if the acquired
    tokenizer reports no total size and [options.fileSize] is given and is not
    zero, then [ParserFactory.parse] is invoked, right after the tokenizer is
    acquired, on a tokenizer whose [fileSize] is that size. *)
Theorem fileSize_applied_before_factory_parse
    stream buf mimeType opts log tokenizer (size : Z) :
  fileSize tokenizer = None →
  Options.fileSize opts = Some size →
  size ≠ 0%Z →
  (strtok3_fromStream env stream = Normal tokenizer →
   parseStream env stream mimeType (Some opts) log
   = (log ++ [FromStream; FactoryParse {| fileSize := Some size |} mimeType opts],
      ParserFactory_parse env {| fileSize := Some size |} mimeType opts)) ∧
  (strtok3_fromBuffer env buf = Normal tokenizer →
   parseBuffer env buf mimeType (Some opts) log
   = (log ++ [FromBuffer; FactoryParse {| fileSize := Some size |} mimeType opts],
      ParserFactory_parse env {| fileSize := Some size |} mimeType opts)).
Proof.
  intros Habsent Hgiven Hsize.
  assert (Hset : setFileSize tokenizer opts = {| fileSize := Some size |}).
  { rewrite <- Hgiven. apply setFileSize_overwrites; [by left | by exists size]. }
  split; intros Hopen.
  - rewrite (parseStream_opened _ _ _ _ _ Hopen). simpl default. by rewrite Hset.
  - rewrite (parseBuffer_opened _ _ _ _ _ Hopen). simpl default. by rewrite Hset.
Qed.

(** C9 (amended). [parseStream] and [parseBuffer] hand [ParserFactory.parse]
    a tokenizer whose [fileSize] is [options.fileSize] when the acquired
    tokenizer's [fileSize] is absent or zero and [options.fileSize] is given
    and not zero, and hand over the acquired tokenizer unchanged in every
    other case. In particular a tokenizer reporting a total size of [0] is
    overwritten when [options.fileSize] is given and not zero. *)
Theorem fileSize_overwritten_exactly_when stream buf mimeType opts log tokenizer :
  let overwrite :=
    (fileSize tokenizer = None ∨ fileSize tokenizer = Some 0%Z) ∧
    (∃ size, Options.fileSize opts = Some size ∧ size ≠ 0%Z) in
  let runs (handed : ITokenizer) :=
    (strtok3_fromStream env stream = Normal tokenizer →
     parseStream env stream mimeType (Some opts) log
     = (log ++ [FromStream; FactoryParse handed mimeType opts],
        ParserFactory_parse env handed mimeType opts)) ∧
    (strtok3_fromBuffer env buf = Normal tokenizer →
     parseBuffer env buf mimeType (Some opts) log
     = (log ++ [FromBuffer; FactoryParse handed mimeType opts],
        ParserFactory_parse env handed mimeType opts)) in
  (overwrite → runs {| fileSize := Options.fileSize opts |}) ∧
  (¬ overwrite → runs tokenizer).
Proof.
  intros overwrite runs. subst overwrite runs. cbn beta. split.
  - intros [Hfalsy Htruthy].
    pose proof (setFileSize_overwrites tokenizer opts Hfalsy Htruthy) as Hset.
    split; intros Hopen.
    + rewrite (parseStream_opened _ _ _ _ _ Hopen). simpl default. by rewrite Hset.
    + rewrite (parseBuffer_opened _ _ _ _ _ Hopen). simpl default. by rewrite Hset.
  - intros Hnot. pose proof (setFileSize_unchanged tokenizer opts Hnot) as Hset.
    split; intros Hopen.
    + rewrite (parseStream_opened _ _ _ _ _ Hopen). simpl default. by rewrite Hset.
    + rewrite (parseBuffer_opened _ _ _ _ _ Hopen). simpl default. by rewrite Hset.
Qed.

End OrchestrationFacts.

(** ** The entry points on sample collaborators *)

Example sampleExtname_examples :
  sampleExtname "track.xyz" = ".xyz" ∧ sampleExtname "a.b/track" = "" ∧
  sampleExtname ".bashrc" = "" ∧ sampleParserId "music/track.mp3" = Some mpeg ∧
  sampleParserId "track.xyz" = None.
Proof. repeat split; vm_compute; reflexivity. Qed.

(** C1 (evaluation at the failing inputs). With a tokenizer that opened:
    on a path with an unregistered extension [parseFile] rejects without ever
    calling [close]; when loading the decoder fails it rejects without calling
    [close] either; and when [parse()] is fulfilled but [close] is rejected,
    [close] is called a second time. Only when [parse()] itself rejects, or
    when all succeeds, is [close] called exactly once. *)
Theorem parseFile_close_not_once :
  let loaded := Normal (sampleParser (Normal tt)) in
  parseFile (sampleEnv (Some 1024%Z) closeSucceeds loaded) "track.xyz" None []
  = ([FromFile "track.xyz"], Abrupt (Error "No parser found for extension: .xyz")) ∧
  closeCount
    (parseFile (sampleEnv (Some 1024%Z) closeSucceeds loaded) "track.xyz" None []).1 = 0 ∧
  closeCount
    (parseFile (sampleEnv (Some 1024%Z) closeSucceeds (Abrupt (Error "Cannot find module")))
       "track.mp3" None []).1 = 0 ∧
  closeCount
    (parseFile (sampleEnv (Some 1024%Z) closeFails loaded) "track.mp3" None []).1 = 2 ∧
  closeCount
    (parseFile (sampleEnv (Some 1024%Z) closeSucceeds
                  (Normal (sampleParser (Abrupt (Error "Invalid header"))))) "track.mp3" None []).1
  = 1 ∧
  closeCount
    (parseFile (sampleEnv (Some 1024%Z) closeSucceeds loaded) "track.mp3" None []).1 = 1.
Proof. cbv zeta. repeat split; vm_compute; reflexivity. Qed.

(** C2 (counterexample). On ["track.xyz"], whose extension has no decoder,
    the failure does not come before any tokenizer work: the tokenizer over
    the file has been opened by then. *)
Lemma parseFile_opens_before_lookup :
  ¬ failsBeforeTokenizerWork
      (sampleEnv (Some 1024%Z) closeSucceeds (Normal (sampleParser (Normal tt)))) "track.xyz".
Proof.
  unfold failsBeforeTokenizerWork. intros Hclaim.
  specialize (Hclaim eq_refl). vm_compute in Hclaim.
  destruct Hclaim as (_ & Htokenizer & _). discriminate Htokenizer.
Qed.

Lemma parseFile_unsupported_extension_witness :
  let env := sampleEnv (Some 1024%Z) closeSucceeds (Normal (sampleParser (Normal tt))) in
  getParserIdForExtension env "track.xyz" = None ∧
  parseFile env "track.xyz" None []
  = ([FromFile "track.xyz"], Abrupt (Error "No parser found for extension: .xyz")).
Proof.
  intros env. split; [reflexivity|].
  destruct (parseFile_unsupported_extension env "track.xyz" None [] eq_refl) as [Hopened _].
  destruct (Hopened _ eq_refl) as (message & Hrun & Hmessage & _).
  rewrite Hrun, Hmessage. reflexivity.
Defined.

Lemma parseFile_rejection_closes_then_rethrows_witness :
  let env := sampleEnv (Some 1024%Z) closeSucceeds
               (Normal (sampleParser (Abrupt (Error "Invalid FLAC preamble")))) in
  parse (sampleParser (Abrupt (Error "Invalid FLAC preamble")))
  = Abrupt (Error "Invalid FLAC preamble") ∧
  parseFile env "track.flac" None []
  = ([FromFile "track.flac"; LoadParser flac Options.empty; Init; Parse; Close],
     Abrupt (Error "Invalid FLAC preamble")).
Proof.
  intros env. split; [reflexivity|].
  destruct (parseFile_rejection_closes_then_rethrows env "track.flac" None []
              {| fileSize := Some 1024%Z |} flac
              (sampleParser (Abrupt (Error "Invalid FLAC preamble"))) tt
              (Error "Invalid FLAC preamble") eq_refl eq_refl eq_refl eq_refl eq_refl)
    as (outcome & Hrun & Hclosed & _).
  rewrite Hrun, (Hclosed tt eq_refl). reflexivity.
Defined.

(** C7 (counterexample). A stream tokenizer without a total size and
    [options.fileSize = 0]: the size is given, and the tokenizer handed to
    [ParserFactory.parse] still has none. *)
Lemma fileSize_zero_not_applied :
  ¬ appliesGivenFileSize (sampleEnv None closeSucceeds (Normal (sampleParser (Normal tt))))
      tt [] (withFileSize 0).
Proof.
  unfold appliesGivenFileSize. intros Hclaim.
  destruct (Hclaim {| fileSize := None |} 0%Z eq_refl eq_refl) as [Hstream _].
  specialize (Hstream eq_refl). vm_compute in Hstream. discriminate Hstream.
Qed.

Lemma fileSize_applied_before_factory_parse_witness :
  let env := sampleEnv None closeSucceeds (Normal (sampleParser (Normal tt))) in
  handedTokenizers (parseStream env tt (Some "audio/mpeg") (Some (withFileSize 4096)) []).1
  = [ {| fileSize := Some 4096%Z |} ] ∧
  handedTokenizers (parseBuffer env [] (Some "audio/mpeg") (Some (withFileSize 4096)) []).1
  = [ {| fileSize := Some 4096%Z |} ].
Proof.
  intros env.
  destruct (fileSize_applied_before_factory_parse env tt [] (Some "audio/mpeg")
              (withFileSize 4096) [] {| fileSize := None |} 4096%Z eq_refl eq_refl)
    as [Hstream Hbuffer]; [lia|].
  rewrite (Hstream eq_refl), (Hbuffer eq_refl). split; reflexivity.
Defined.

(** C9 (counterexample). The acquired tokenizer's [fileSize] is absent and
    [options.fileSize] is [0]: the tokenizer is not overwritten with [0]. *)
Lemma fileSize_zero_not_overwritten :
  ¬ overwritesExactlyWhenFalsy
      (sampleEnv None closeSucceeds (Normal (sampleParser (Normal tt)))) tt [] (withFileSize 0).
Proof.
  unfold overwritesExactlyWhenFalsy. intros Hclaim.
  destruct (Hclaim {| fileSize := None |} 0%Z eq_refl) as [_ Hbuffer].
  specialize (Hbuffer eq_refl). vm_compute in Hbuffer. discriminate Hbuffer.
Qed.

Lemma fileSize_overwritten_exactly_when_witness :
  handedTokenizers
    (parseBuffer (sampleEnv (Some 0%Z) closeSucceeds (Normal (sampleParser (Normal tt))))
       [] None (Some (withFileSize 4096)) []).1
  = [ {| fileSize := Some 4096%Z |} ] ∧
  handedTokenizers
    (parseStream (sampleEnv (Some 1024%Z) closeSucceeds (Normal (sampleParser (Normal tt))))
       tt None (Some (withFileSize 4096)) []).1
  = [ {| fileSize := Some 1024%Z |} ].
Proof.
  split.
  - destruct (fileSize_overwritten_exactly_when
                (sampleEnv (Some 0%Z) closeSucceeds (Normal (sampleParser (Normal tt))))
                tt [] None (withFileSize 4096) [] {| fileSize := Some 0%Z |})
      as [Hoverwrite _].
    destruct Hoverwrite as [_ Hbuffer].
    { split; [by right | exists 4096%Z; split; [reflexivity | lia]]. }
    rewrite (Hbuffer eq_refl). reflexivity.
  - destruct (fileSize_overwritten_exactly_when
                (sampleEnv (Some 1024%Z) closeSucceeds (Normal (sampleParser (Normal tt))))
                tt [] None (withFileSize 4096) [] {| fileSize := Some 1024%Z |})
      as [_ Hkeep].
    destruct Hkeep as [Hstream _].
    { intros [[Habsent|Hzero] _]; discriminate. }
    rewrite (Hstream eq_refl). reflexivity.
Defined.

(** ** ratingToStars on sample ratings *)

(** On the sample ratings the exact model and the bit-level evaluation give
    the same number of stars. *)
Lemma ratingToStars_binary64_samples :
  Forall (fun r => Binary64.value (Binary64.ratingToStars (Some r))
                   = ratingToStars (Some (Binary64.value r)))
    Binary64.sampleRatings ∧
  Binary64.value (Binary64.ratingToStars None) = ratingToStars None ∧
  map (fun r => Binary64.value (Binary64.ratingToStars (Some r))) Binary64.sampleRatings
  = map ofZ [1; 2; 3; 3; 4; 5; 5; 2; 4; 1; 1; 1]%Z.
Proof.
  split; [|split; vm_compute; reflexivity].
  unfold Binary64.sampleRatings.
  repeat (constructor; [vm_compute; reflexivity|]). constructor.
Qed.

Lemma ratingToStars_spec_witness :
  (0 <= 1 # 2)%Q ∧ (1 # 2 <= 1)%Q ∧
  (∃ stars : Z, ratingToStars (Some (Finite (1 # 2))) = ofZ stars ∧ (0 <= stars <= 5)%Z) ∧
  valid_binary Binary64.prec Binary64.emax (Binary64.dyadic 3 (-2)) = true ∧
  (∃ stars : Z, Binary64.ratingToStars (Some (Binary64.dyadic 3 (-2)))
                = Binary64.dyadic stars 0 ∧ (0 <= stars <= 5)%Z).
Proof.
  assert (Hrange : (0 <= 1 # 2)%Q ∧ (1 # 2 <= 1)%Q) by (split; discriminate).
  destruct (ratingToStars_spec (1 # 2) (Binary64.dyadic 3 (-2)))
    as (_ & _ & Hexact & Hbits & _).
  destruct (Hexact Hrange) as (stars & Hstars & Hbounds & _).
  destruct Hbits as (stars' & Hstars' & _ & Hbounds' & _);
    [repeat split; vm_compute; reflexivity|].
  split; [apply Hrange|]. split; [apply Hrange|].
  split; [by exists stars|]. split; [vm_compute; reflexivity|]. by exists stars'.
Defined.

Lemma ratingToStars_tie_up_witness :
  ((1 # 8) * 4 == inject_Z 0 + (1 # 2))%Q ∧
  ratingToStars (Some (Finite (1 # 8))) = ofZ (1 + (0 + 1)) ∧
  Binary64.value (Binary64.dyadic 1 (-3)) = Finite (1 # 8) ∧
  Binary64.ratingToStars (Some (Binary64.dyadic 1 (-3))) = Binary64.dyadic (1 + (0 + 1)) 0.
Proof.
  destruct (ratingToStars_tie_up (1 # 8) 0 (Binary64.dyadic 1 (-3)))
    as (Hexact & Hbits & _).
  split; [reflexivity|]. split; [apply Hexact; reflexivity|].
  split; [vm_compute; reflexivity|].
  apply Hbits; [repeat split; vm_compute; reflexivity | vm_compute; reflexivity | reflexivity].
Defined.

(** * Further properties of the exported functions *)

(** ** orderTags: what the dictionary holds *)

Section OrderTagsMore.
Context {V : Type}.
Implicit Types (T : list (ITag V)) (d : gmap string (list V)).

Lemma valuesWithId_nil_iff k T : valuesWithId k T = [] ↔ k ∉ id <$> T.
Proof.
  induction T as [|t rest IH]; simpl.
  - split; [intros _; apply not_elem_of_nil | done].
  - rewrite not_elem_of_cons. destruct (decide (id t = k)) as [Heq|Hne].
    + split; [done | by intros [? _]].
    + rewrite IH. split; [by intros ?; split | by intros [_ ?]].
Qed.

Lemma orderTags_returns_iff T : (∃ d, orderTags T = Normal d) ↔ plainIds T.
Proof.
  split.
  - intros [d Hrun]. apply Forall_forall. intros t Ht Hin.
    assert (Hthrow : orderTags T = Abrupt TypeError).
    { apply orderTags_throws_iff, Exists_exists. eauto. }
    congruence.
  - intros Hplain. destruct (orderTags_plain T Hplain) as (d & Hrun & _). eauto.
Qed.

(** X1. On tags whose ids are not names of members of [Object.prototype],
    [orderTags] returns a dictionary whose entry for an id is the sequence of
    the values tagged with that id, in their order of arrival, and which has
    no entry for any other key. *)
Theorem orderTags_groups_values_by_id T :
  plainIds T →
  ∃ d, orderTags T = Normal d ∧ ∀ k, d !! k = groupOf (valuesWithId k T).
Proof. apply orderTags_plain. Qed.

(** X2. The keys of the dictionary returned by [orderTags] are exactly the
    ids that occur in the tag list, and no key holds an empty sequence. *)
Theorem orderTags_keys_are_ids T d :
  orderTags T = Normal d →
  (∀ k, is_Some (d !! k) ↔ k ∈ id <$> T) ∧
  (∀ k vs, d !! k = Some vs → vs ≠ []).
Proof.
  intros Hrun.
  assert (Hplain : plainIds T) by (apply orderTags_returns_iff; eauto).
  destruct (orderTags_plain T Hplain) as (d' & Hrun' & Hlook).
  assert (d' = d) as -> by congruence.
  split.
  - intros k. rewrite Hlook.
    destruct (valuesWithId k T) as [|v vs] eqn:Hvalues; simpl.
    + apply valuesWithId_nil_iff in Hvalues. split; [by intros [? ?] | done].
    + split; [intros _ | by eauto].
      destruct (decide (k ∈ id <$> T)) as [|Hout]; [done|].
      apply valuesWithId_nil_iff in Hout. congruence.
  - intros k vs. rewrite Hlook. by destruct (valuesWithId k T); intros [= <-].
Qed.

(** X3. The dictionary returned by [orderTags] holds as many values as the
    list has tags: no value is dropped and none is stored twice. *)
Theorem orderTags_keeps_every_value T d :
  orderTags T = Normal d → totalValues d = length T.
Proof.
  intros Hrun. apply orderTags_plain_count; [|exact Hrun].
  apply orderTags_returns_iff. eauto.
Qed.

(** X4. [orderTags] throws a [TypeError] exactly when some tag of the list
    has an id that names a member of [Object.prototype] ([constructor],
    [toString], [__proto__], ...), wherever that tag stands; in every other
    case it returns a dictionary. *)
Theorem orderTags_throws_exactly_when T :
  (orderTags T = Abrupt TypeError ↔ Exists (fun t => id t ∈ objectPrototypeKeys) T) ∧
  ((∃ d, orderTags T = Normal d) ↔ Forall (fun t => id t ∉ objectPrototypeKeys) T).
Proof. split; [apply orderTags_throws_iff | apply orderTags_returns_iff]. Qed.

End OrderTagsMore.

Lemma sampleTags_plain : plainIds sampleTags.
Proof.
  repeat (apply Forall_cons; split;
          [intros Hin; repeat (apply elem_of_cons in Hin as [Hin|Hin]; [discriminate Hin|]);
           by apply elem_of_nil in Hin|]).
  apply Forall_nil_2.
Defined.

Lemma orderTags_groups_values_by_id_witness :
  plainIds sampleTags ∧
  ∃ d, orderTags sampleTags = Normal d ∧
       d !! "COMM" = Some ["first"; "second"] ∧ d !! "TIT2" = Some ["Title"] ∧
       d !! "TALB" = None.
Proof.
  split; [exact sampleTags_plain|].
  destruct (orderTags_groups_values_by_id sampleTags sampleTags_plain) as (d & Hrun & Hlook).
  exists d. split; [exact Hrun|]. rewrite !Hlook. repeat split.
Defined.

Lemma sampleTags_run :
  orderTags sampleTags
  = Normal (<["COMM" := ["first"; "second"]]> (<["TIT2" := ["Title"]]> ∅)).
Proof. vm_compute. reflexivity. Defined.

Lemma orderTags_keys_are_ids_witness :
  let d : gmap string (list string) :=
    <["COMM" := ["first"; "second"]]> (<["TIT2" := ["Title"]]> ∅) in
  orderTags sampleTags = Normal d ∧ is_Some (d !! "COMM") ∧ ¬ is_Some (d !! "TALB").
Proof.
  intros d. split; [exact sampleTags_run|].
  destruct (orderTags_keys_are_ids sampleTags d sampleTags_run) as [Hkeys _].
  split.
  - apply Hkeys. simpl. apply elem_of_cons. right. apply elem_of_cons. by left.
  - intros Hin%Hkeys. simpl in Hin.
    repeat (apply elem_of_cons in Hin as [Hin|Hin]; [discriminate Hin|]).
    by apply elem_of_nil in Hin.
Defined.

Lemma orderTags_keeps_every_value_witness :
  let d : gmap string (list string) :=
    <["COMM" := ["first"; "second"]]> (<["TIT2" := ["Title"]]> ∅) in
  orderTags sampleTags = Normal d ∧ totalValues d = 3.
Proof.
  intros d. split; [exact sampleTags_run|].
  exact (orderTags_keeps_every_value sampleTags d sampleTags_run).
Defined.

(** ** joinArtists: how the result is built from the names *)

Section JoinArtistsMore.
Implicit Types (s name sep : string) (names rest : list string).

Lemma length_append_string s1 s2 :
  String.length (s1 +:+ s2) = String.length s1 + String.length s2.
Proof.
  induction s1 as [|c s1 IH]; [done|].
  change (S (String.length (s1 +:+ s2)) = S (String.length s1 + String.length s2)).
  by rewrite IH.
Qed.

Lemma includes_here s after : includes (s +:+ after) s.
Proof. by exists "", after. Qed.

Lemma includes_after front s name : includes s name → includes (front +:+ s) name.
Proof.
  intros (before & after & ->). exists (front +:+ before), after.
  by rewrite append_assoc.
Qed.

(** From three names on: all but the last joined with [", "], then [" & "]
    and the last. *)
Lemma joinArtists_many a b c rest :
  joinArtists (a :: b :: c :: rest)
  = separatedBy ", " (removelast (a :: b :: c :: rest)) +:+ " & "
    +:+ List.last (a :: b :: c :: rest) "".
Proof.
  unfold joinArtists. set (l := a :: b :: c :: rest).
  assert (Hne : l ≠ []) by done.
  assert (Hlen : (2 <? Z.of_nat (length l))%Z = true)
    by (apply Z.ltb_lt; subst l; cbn [length]; lia).
  rewrite Hlen, (Array_slice_init l Hne), (Array_get_last l Hne), Array_join_separatedBy.
  simpl toStringOperand. by rewrite append_assoc.
Qed.

Lemma joinArtists_two a b : joinArtists [a; b] = a +:+ " & " +:+ b.
Proof. exact (Array_join_separatedBy " & " [a; b]). Qed.

(** One more name in front of at least two puts that name and [", "] in
    front of the result. *)
Lemma joinArtists_step a rest :
  2 ≤ length rest → joinArtists (a :: rest) = a +:+ ", " +:+ joinArtists rest.
Proof.
  destruct rest as [|b [|c [|d rest]]]; simpl; [lia | lia | |]; intros _.
  - rewrite joinArtists_many, joinArtists_two.
    change (separatedBy ", " (removelast [a; b; c])) with (a +:+ ", " +:+ b).
    change (List.last [a; b; c] "") with c. by rewrite !append_assoc.
  - rewrite !joinArtists_many.
    change (removelast (a :: b :: c :: d :: rest))
      with (a :: b :: removelast (c :: d :: rest)).
    change (removelast (b :: c :: d :: rest)) with (b :: removelast (c :: d :: rest)).
    change (List.last (a :: b :: c :: d :: rest) "") with (List.last (b :: c :: d :: rest) "").
    change (separatedBy ", " (a :: b :: removelast (c :: d :: rest)))
      with (a +:+ ", " +:+ separatedBy ", " (b :: removelast (c :: d :: rest))).
    by rewrite !append_assoc.
Qed.

(** X5. [joinArtists] of one more name in front of at least two names is
    that name, [", "] and [joinArtists] of the others: the separator before
    the last name stays [" & "] and every earlier one is [", "]. *)
Theorem joinArtists_cons a rest :
  2 ≤ length rest → joinArtists (a :: rest) = a +:+ ", " +:+ joinArtists rest.
Proof. apply joinArtists_step. Qed.

(** X6. Every name of the list occurs in the string that [joinArtists]
    returns: no name is dropped, however many names there are. *)
Theorem joinArtists_includes_every_name names name :
  name ∈ names → includes (joinArtists names) name.
Proof.
  destruct names as [|a [|b rest]].
  - intros Hin. by apply elem_of_nil in Hin.
  - intros ->%list_elem_of_singleton. exists "", "".
    change (a = a +:+ ""). clear. induction a as [|c a IH]; [done|].
    change (String c a = String c (a +:+ "")). by f_equal.
  - revert a b. induction rest as [|c rest IH]; intros a b Hin.
    + rewrite joinArtists_two. apply elem_of_cons in Hin as [->|Hin]; [apply includes_here|].
      apply list_elem_of_singleton in Hin as ->. apply includes_after.
      exists " & ", "". f_equal. clear. induction b as [|c b IH]; [done|].
      change (String c b = String c (b +:+ "")). by f_equal.
    + rewrite joinArtists_step by (simpl; lia).
      apply elem_of_cons in Hin as [->|Hin]; [apply includes_here|].
      apply includes_after, includes_after. by apply IH.
Qed.

(** X7. [joinArtists] cannot be undone: a name that contains a separator
    gives the same string as the names it seems to list, so two different
    lists of artists can be joined to one string. *)
Theorem joinArtists_not_injective a b c :
  joinArtists [a +:+ " & " +:+ b] = joinArtists [a; b] ∧
  joinArtists [a +:+ ", " +:+ b; c] = joinArtists [a; b; c] ∧
  ¬ (∀ names names', joinArtists names = joinArtists names' → names = names').
Proof.
  assert (Hone : joinArtists [a +:+ " & " +:+ b] = joinArtists [a; b])
    by (by rewrite joinArtists_two).
  split; [exact Hone|]. split.
  - rewrite joinArtists_two, joinArtists_many.
    change (separatedBy ", " (removelast [a; b; c])) with (a +:+ ", " +:+ b).
    change (List.last [a; b; c] "") with c. by rewrite !append_assoc.
  - intros Hinj. specialize (Hinj _ _ Hone). discriminate Hinj.
Qed.

(** X8. The string returned by [joinArtists] has the characters of all names
    and, for two names or more, three characters for [" & "] and two for
    each [", "]; nothing else is added. *)
Theorem joinArtists_length names :
  String.length (joinArtists names) = totalLength names + separatorLength (length names).
Proof.
  destruct names as [|a [|b rest]];
    [done | change (joinArtists [a]) with a; cbn [totalLength length separatorLength]; lia |].
  revert a b. induction rest as [|c rest IH]; intros a b.
  - rewrite joinArtists_two, !length_append_string.
    cbn [totalLength length separatorLength String.length]. lia.
  - rewrite joinArtists_step by (simpl; lia).
    rewrite !length_append_string, IH.
    cbn [totalLength length separatorLength String.length]. lia.
Qed.

End JoinArtistsMore.

Lemma joinArtists_cons_witness :
  2 ≤ length ["Paul"; "Ringo"] ∧
  joinArtists ["John"; "Paul"; "Ringo"] = "John, Paul & Ringo".
Proof.
  split; [simpl; lia|].
  rewrite (joinArtists_cons "John" ["Paul"; "Ringo"]) by (simpl; lia).
  vm_compute. reflexivity.
Defined.

Lemma joinArtists_includes_every_name_witness :
  "Paul" ∈ ["John"; "Paul"; "Ringo"] ∧
  includes (joinArtists ["John"; "Paul"; "Ringo"]) "Paul".
Proof.
  assert (Hin : "Paul" ∈ ["John"; "Paul"; "Ringo"])
    by (apply elem_of_cons; right; apply elem_of_cons; by left).
  split; [exact Hin|].
  exact (joinArtists_includes_every_name ["John"; "Paul"; "Ringo"] "Paul" Hin).
Defined.

(** ** ratingToStars: which ratings give which number of stars *)

Section RatingToStarsMore.
Local Open Scope Q_scope.







(** X13. A rating that is not a finite number is returned as it is: [NaN]
    gives [NaN] and an infinite rating gives the same infinity, not [0] and
    not a number of stars; so it is on doubles. *)
Theorem ratingToStars_not_finite (negative : bool) :
  ratingToStars (Some NaN) = NaN ∧
  ratingToStars (Some (Infinity negative)) = Infinity negative ∧
  Binary64.ratingToStars (Some S754_nan) = S754_nan ∧
  Binary64.ratingToStars (Some (S754_infinity negative)) = S754_infinity negative.
Proof. by destruct negative. Qed.

End RatingToStarsMore.


(** ** parseFile: which calls are made and what the caller gets *)

Section ParseFileMore.
Context {IAudioMetadata Readable : Type}.
Context (env : Collaborators IAudioMetadata Readable).
Implicit Types (log : list Event) (options : option Options.IOptions).

(** The calls of one run, path by path. *)
Lemma parseFile_log filePath options log :
  (parseFile env filePath options log).1 = log ++
  match strtok3_fromFile env filePath, getParserIdForExtension env filePath with
  | Abrupt _, _ | Normal _, None => [FromFile filePath]
  | Normal _, Some parserName =>
      match loadParser env parserName (default Options.empty options) with
      | Abrupt _ => take 2 (parseFileCalls filePath parserName (default Options.empty options))
      | Normal parser =>
          match init parser, parse parser, tokenizer_close env (closeCount log) with
          | Abrupt _, _, _ =>
              take 3 (parseFileCalls filePath parserName (default Options.empty options))
          | Normal _, Abrupt _, _ | Normal _, Normal _, Normal _ =>
              take 5 (parseFileCalls filePath parserName (default Options.empty options))
          | Normal _, Normal _, Abrupt _ =>
              take 6 (parseFileCalls filePath parserName (default Options.empty options))
          end
      end
  end.
Proof.
  destruct (strtok3_fromFile env filePath) as [tokenizer|e] eqn:Hopen;
    [|by rewrite (parseFile_open_fails _ _ _ _ _ Hopen)].
  destruct (getParserIdForExtension env filePath) as [parserName|] eqn:Hid;
    [|by rewrite (parseFile_no_parser _ _ _ _ _ Hopen Hid)].
  destruct (loadParser env parserName (default Options.empty options)) as [parser|e] eqn:Hload;
    [|by rewrite (parseFile_load_fails _ _ _ _ _ _ _ Hopen Hid Hload)].
  destruct (init parser) as [u|e] eqn:Hinit;
    [|by rewrite (parseFile_init_throws _ _ _ _ _ _ _ _ Hopen Hid Hload Hinit)].
  destruct (parse parser) as [u'|err] eqn:Hparse.
  - rewrite (parseFile_parsed _ _ _ _ _ _ _ _ _ Hopen Hid Hload Hinit Hparse).
    by destruct (tokenizer_close env (closeCount log)).
  - rewrite (parseFile_parse_rejects _ _ _ _ _ _ _ _ _ Hopen Hid Hload Hinit Hparse).
    by destruct (tokenizer_close env (closeCount log)).
Qed.


(** X15. The promise of [parseFile] is fulfilled only if opening the file,
    finding and loading the decoder, [init], [parse()] and [close] all
    succeeded, and then with what [toCommonMetadata()] of the collector
    yields; in every other case it is rejected. *)
Theorem parseFile_fulfils_iff filePath options log (metadata : IAudioMetadata) :
  (parseFile env filePath options log).2 = Normal metadata ↔
  ∃ tokenizer parserName parser u u' u'',
    strtok3_fromFile env filePath = Normal tokenizer ∧
    getParserIdForExtension env filePath = Some parserName ∧
    loadParser env parserName (default Options.empty options) = Normal parser ∧
    init parser = Normal u ∧
    parse parser = Normal u' ∧
    tokenizer_close env (closeCount log) = Normal u'' ∧
    metadata = toCommonMetadata parser.
Proof.
  split.
  - destruct (strtok3_fromFile env filePath) as [tokenizer|e] eqn:Hopen;
      [|by rewrite (parseFile_open_fails _ _ _ _ _ Hopen)].
    destruct (getParserIdForExtension env filePath) as [parserName|] eqn:Hid;
      [|by rewrite (parseFile_no_parser _ _ _ _ _ Hopen Hid)].
    destruct (loadParser env parserName (default Options.empty options))
      as [parser|e] eqn:Hload;
      [|by rewrite (parseFile_load_fails _ _ _ _ _ _ _ Hopen Hid Hload)].
    destruct (init parser) as [u|e] eqn:Hinit;
      [|by rewrite (parseFile_init_throws _ _ _ _ _ _ _ _ Hopen Hid Hload Hinit)].
    destruct (parse parser) as [u'|err] eqn:Hparse.
    + rewrite (parseFile_parsed _ _ _ _ _ _ _ _ _ Hopen Hid Hload Hinit Hparse).
      destruct (tokenizer_close env (closeCount log)) as [u''|closeError] eqn:Hclose.
      * intros [= <-]. by exists tokenizer, parserName, parser, u, u', u''.
      * simpl. by destruct (tokenizer_close env (S (closeCount log))).
    + rewrite (parseFile_parse_rejects _ _ _ _ _ _ _ _ _ Hopen Hid Hload Hinit Hparse).
      simpl. by destruct (tokenizer_close env (closeCount log)).
  - intros (tokenizer & parserName & parser & u & u' & u'' &
            Hopen & Hid & Hload & Hinit & Hparse & Hclose & ->).
    rewrite (parseFile_parsed _ _ _ _ _ _ _ _ _ Hopen Hid Hload Hinit Hparse).
    by rewrite Hclose.
Qed.

(** X16. When [parse()] is fulfilled and [close] is then rejected,
    [parseFile] calls [close] a second time, nothing after it, and rejects:
    with the error of the first [close] if the second is fulfilled, with the
    error of the second otherwise. The metadata is not returned. *)
Theorem parseFile_close_rejected_after_parse
    filePath options log tokenizer parserName parser u u' closeError :
  strtok3_fromFile env filePath = Normal tokenizer →
  getParserIdForExtension env filePath = Some parserName →
  loadParser env parserName (default Options.empty options) = Normal parser →
  init parser = Normal u →
  parse parser = Normal u' →
  tokenizer_close env (closeCount log) = Abrupt closeError →
  ∃ e,
    parseFile env filePath options log
    = (log ++ [FromFile filePath; LoadParser parserName (default Options.empty options);
               Init; Parse; Close; Close], Abrupt e) ∧
    (∀ u'', tokenizer_close env (S (closeCount log)) = Normal u'' → e = closeError) ∧
    (∀ closeError', tokenizer_close env (S (closeCount log)) = Abrupt closeError' →
                    e = closeError').
Proof.
  intros Hopen Hid Hload Hinit Hparse Hclose.
  rewrite (parseFile_parsed _ _ _ _ _ _ _ _ _ Hopen Hid Hload Hinit Hparse), Hclose.
  destruct (tokenizer_close env (S (closeCount log))) as [u''|closeError'].
  - exists closeError. by repeat split.
  - exists closeError'. repeat split; [done|]. by intros ? [= ->].
Qed.


(** X18. One run of [parseFile] makes its calls in one fixed order: it opens
    the file, loads the decoder, calls [init], calls [parse()], closes the
    tokenizer, closes it once more; it stops somewhere in this sequence and
    never goes back. Without a decoder for the extension it stops after
    opening the file. *)
Theorem parseFile_call_order filePath options log :
  match getParserIdForExtension env filePath with
  | None => (parseFile env filePath options log).1 = log ++ [FromFile filePath]
  | Some parserName =>
      ∃ n, 1 ≤ n ≤ 6 ∧
           (parseFile env filePath options log).1
           = log ++ take n (parseFileCalls filePath parserName (default Options.empty options))
  end.
Proof.
  rewrite parseFile_log.
  destruct (getParserIdForExtension env filePath) as [parserName|];
    [|by destruct (strtok3_fromFile env filePath)].
  destruct (strtok3_fromFile env filePath); [|exists 1; split; [lia | done]].
  destruct (loadParser env parserName (default Options.empty options)) as [parser|];
    [|exists 2; split; [lia | done]].
  destruct (init parser), (parse parser), (tokenizer_close env (closeCount log));
    first [ exists 3; split; [lia | reflexivity] | exists 5; split; [lia | reflexivity]
          | exists 6; split; [lia | reflexivity] ].
Qed.

End ParseFileMore.

Lemma parseFile_close_rejected_after_parse_witness :
  let env := sampleEnv (Some 1024%Z) closeFailsOnce (Normal (sampleParser (Normal tt))) in
  tokenizer_close env 0 = Abrupt (Error "EIO") ∧
  parseFile env "track.mp3" None []
  = ([FromFile "track.mp3"; LoadParser mpeg Options.empty; Init; Parse; Close; Close],
     Abrupt (Error "EIO")).
Proof.
  intros env. split; [reflexivity|].
  destruct (parseFile_close_rejected_after_parse env "track.mp3" None []
              {| fileSize := Some 1024%Z |} mpeg (sampleParser (Normal tt)) tt tt
              (Error "EIO") eq_refl eq_refl eq_refl eq_refl eq_refl eq_refl)
    as (e & Hrun & Hsecond & _).
  rewrite Hrun, (Hsecond tt eq_refl). reflexivity.
Defined.

(** ** parseStream and parseBuffer: what reaches ParserFactory.parse *)

Section ParseStreamMore.
Context {IAudioMetadata Readable : Type}.
Context (env : Collaborators IAudioMetadata Readable).
Implicit Types (log : list Event) (options : option Options.IOptions).
Implicit Types (mimeType : option string) (tokenizer : ITokenizer).

Lemma parseStream_open_fails stream mimeType options log e :
  strtok3_fromStream env stream = Abrupt e →
  parseStream env stream mimeType options log = (log ++ [FromStream], Abrupt e).
Proof. intros Hopen. unfold parseStream, then_, call. by rewrite Hopen. Qed.

Lemma parseBuffer_open_fails buf mimeType options log e :
  strtok3_fromBuffer env buf = Abrupt e →
  parseBuffer env buf mimeType options log = (log ++ [FromBuffer], Abrupt e).
Proof. intros Hopen. unfold parseBuffer, then_, call. by rewrite Hopen. Qed.

Lemma handedTokenizers_app log1 log2 :
  handedTokenizers (log1 ++ log2) = handedTokenizers log1 ++ handedTokenizers log2.
Proof. apply omap_app. Qed.

(** X19. [parseStream] and [parseBuffer] never close the tokenizer they
    acquire, whether it opens or not and however [ParserFactory.parse]
    settles: unlike [parseFile], they leave that to [ParserFactory.parse]. *)
Theorem parseStream_parseBuffer_never_close stream buf mimeType options log :
  closeCount (parseStream env stream mimeType options log).1 = closeCount log ∧
  closeCount (parseBuffer env buf mimeType options log).1 = closeCount log.
Proof.
  split.
  - destruct (strtok3_fromStream env stream) as [tokenizer|e] eqn:Hopen.
    + rewrite (parseStream_opened _ _ _ _ _ _ Hopen). cbn [fst].
      rewrite closeCount_app. change (closeCount [_; _]) with 0. lia.
    + rewrite (parseStream_open_fails _ _ _ _ _ Hopen). cbn [fst].
      rewrite closeCount_app. change (closeCount [_]) with 0. lia.
  - destruct (strtok3_fromBuffer env buf) as [tokenizer|e] eqn:Hopen.
    + rewrite (parseBuffer_opened _ _ _ _ _ _ Hopen). cbn [fst].
      rewrite closeCount_app. change (closeCount [_; _]) with 0. lia.
    + rewrite (parseBuffer_open_fails _ _ _ _ _ Hopen). cbn [fst].
      rewrite closeCount_app. change (closeCount [_]) with 0. lia.
Qed.

(** X20. [parseStream] and [parseBuffer] add no handling of their own: if
    the tokenizer cannot be acquired they fail with that error and
    [ParserFactory.parse] is not invoked; otherwise they invoke it once, with
    the MIME type and the options they were given ([{}] when omitted), and
    settle exactly as it settles. *)
Theorem parseStream_parseBuffer_pass_through stream buf mimeType options log :
  match strtok3_fromStream env stream with
  | Abrupt e =>
      parseStream env stream mimeType options log = (log ++ [FromStream], Abrupt e)
  | Normal tokenizer =>
      ∃ handed,
        parseStream env stream mimeType options log
        = (log ++ [FromStream; FactoryParse handed mimeType (default Options.empty options)],
           ParserFactory_parse env handed mimeType (default Options.empty options))
  end ∧
  match strtok3_fromBuffer env buf with
  | Abrupt e =>
      parseBuffer env buf mimeType options log = (log ++ [FromBuffer], Abrupt e)
  | Normal tokenizer =>
      ∃ handed,
        parseBuffer env buf mimeType options log
        = (log ++ [FromBuffer; FactoryParse handed mimeType (default Options.empty options)],
           ParserFactory_parse env handed mimeType (default Options.empty options))
  end.
Proof.
  split.
  - destruct (strtok3_fromStream env stream) as [tokenizer|e] eqn:Hopen.
    + eexists. by apply parseStream_opened.
    + by apply parseStream_open_fails.
  - destruct (strtok3_fromBuffer env buf) as [tokenizer|e] eqn:Hopen.
    + eexists. by apply parseBuffer_opened.
    + by apply parseBuffer_open_fails.
Qed.

Lemma setFileSize_truthy tokenizer (opts : Options.IOptions) :
  truthy (fileSize (setFileSize tokenizer opts))
  = truthy (fileSize tokenizer) || truthy (Options.fileSize opts).
Proof.
  unfold setFileSize.
  destruct (truthy (fileSize tokenizer)) eqn:Htok; simpl; [done|].
  destruct (truthy (Options.fileSize opts)) eqn:Hopt; simpl; [done | exact Htok].
Qed.

Lemma setFileSize_keeps_known tokenizer (opts : Options.IOptions) :
  truthy (fileSize tokenizer) = true → setFileSize tokenizer opts = tokenizer.
Proof. intros Htok. unfold setFileSize. by rewrite Htok. Qed.

(** X21. The tokenizer that [parseStream] and [parseBuffer] hand to
    [ParserFactory.parse] has a known, non-zero [fileSize] exactly when the
    acquired tokenizer or [options.fileSize] has one; and a non-zero size
    reported by the tokenizer itself always wins over [options.fileSize]. *)
Theorem handed_fileSize_known stream buf mimeType options tokenizer :
  (strtok3_fromStream env stream = Normal tokenizer →
   ∃ handed,
     handedTokenizers (parseStream env stream mimeType options []).1 = [handed] ∧
     truthy (fileSize handed)
     = truthy (fileSize tokenizer)
       || truthy (Options.fileSize (default Options.empty options)) ∧
     (truthy (fileSize tokenizer) = true → handed = tokenizer)) ∧
  (strtok3_fromBuffer env buf = Normal tokenizer →
   ∃ handed,
     handedTokenizers (parseBuffer env buf mimeType options []).1 = [handed] ∧
     truthy (fileSize handed)
     = truthy (fileSize tokenizer)
       || truthy (Options.fileSize (default Options.empty options)) ∧
     (truthy (fileSize tokenizer) = true → handed = tokenizer)).
Proof.
  split; intros Hopen;
    exists (setFileSize tokenizer (default Options.empty options)).
  - rewrite (parseStream_opened _ _ _ _ _ _ Hopen).
    split; [done|]. split; [apply setFileSize_truthy | apply setFileSize_keeps_known].
  - rewrite (parseBuffer_opened _ _ _ _ _ _ Hopen).
    split; [done|]. split; [apply setFileSize_truthy | apply setFileSize_keeps_known].
Qed.

(** X22. [parseBuffer] is [parseStream] over a buffer: when the two sources
    yield the same tokenizer (or the same failure), both entry points hand
    the same tokenizer to [ParserFactory.parse] and settle alike. *)
Theorem parseBuffer_as_parseStream stream buf mimeType options log :
  strtok3_fromStream env stream = strtok3_fromBuffer env buf →
  (parseStream env stream mimeType options log).2
  = (parseBuffer env buf mimeType options log).2 ∧
  handedTokenizers (parseStream env stream mimeType options log).1
  = handedTokenizers (parseBuffer env buf mimeType options log).1.
Proof.
  intros Hsame.
  destruct (strtok3_fromBuffer env buf) as [tokenizer|e] eqn:Hbuffer.
  - rewrite (parseStream_opened _ _ _ _ _ _ Hsame), (parseBuffer_opened _ _ _ _ _ _ Hbuffer).
    cbn [fst snd]. by rewrite !handedTokenizers_app.
  - rewrite (parseStream_open_fails _ _ _ _ _ Hsame), (parseBuffer_open_fails _ _ _ _ _ Hbuffer).
    cbn [fst snd]. by rewrite !handedTokenizers_app.
Qed.

End ParseStreamMore.

Lemma handed_fileSize_known_witness :
  let env := sampleEnv (Some 0%Z) closeSucceeds (Normal (sampleParser (Normal tt))) in
  strtok3_fromStream env tt = Normal {| fileSize := Some 0%Z |} ∧
  (∃ handed,
     handedTokenizers (parseStream env tt None (Some (withFileSize 4096)) []).1 = [handed] ∧
     truthy (fileSize handed) = true) ∧
  (∃ handed,
     handedTokenizers (parseBuffer env [] None None []).1 = [handed] ∧
     truthy (fileSize handed) = false).
Proof.
  intros env. split; [reflexivity|].
  destruct (handed_fileSize_known env tt [] None (Some (withFileSize 4096))
              {| fileSize := Some 0%Z |}) as [Hstream _].
  destruct (Hstream eq_refl) as (handed & Hhanded & Hknown & _).
  destruct (handed_fileSize_known env tt [] None None {| fileSize := Some 0%Z |})
    as [_ Hbuffer].
  destruct (Hbuffer eq_refl) as (handed' & Hhanded' & Hknown' & _).
  split; [exists handed | exists handed']; (split; [assumption|]).
  - rewrite Hknown. reflexivity.
  - rewrite Hknown'. reflexivity.
Defined.

Lemma parseBuffer_as_parseStream_witness :
  let env := sampleEnv (Some 2048%Z) closeSucceeds (Normal (sampleParser (Normal tt))) in
  strtok3_fromStream env tt = strtok3_fromBuffer env [] ∧
  (parseStream env tt (Some "audio/ogg") None []).2
  = (parseBuffer env [] (Some "audio/ogg") None []).2.
Proof.
  intros env. split; [reflexivity|].
  exact (proj1 (parseBuffer_as_parseStream env tt [] (Some "audio/ogg") None [] eq_refl)).
Defined.
